(** * scoutfs: superblock selection and mount (super.c)

    A shallow embedding of [read_supers], [scoutfs_fill_super],
    [scoutfs_mount] and [scoutfs_kill_sb].  Bricks are lists of bytes as
    [sb_bread] hands them over, the fields of [struct scoutfs_super] are
    read at the offsets of the on-disk format, and every call into the
    kernel is recorded in a trace so that the order of the calls can be
    stated. *)

From Stdlib Require Import ZArith List Bool Lia.
From Stdlib Require Import Strings.Byte.
Import ListNotations.
Open Scope Z_scope.

(** ** Machine integers and little-endian fields *)

Definition u32 (z : Z) : Z := z mod 2 ^ 32.
Definition u64 (z : Z) : Z := z mod 2 ^ 64.

(** [(int)(long)x] for a 64-bit pattern [x]. *)
Definition s64 (z : Z) : Z :=
  let r := z mod 2 ^ 64 in if r <? 2 ^ 63 then r else r - 2 ^ 64.

Definition byte_val (b : byte) : Z := Z.of_N (Byte.to_N b).

(** [leNN_to_cpu] of the bytes of a field. *)
Fixpoint le_to_cpu (bs : list byte) : Z :=
  match bs with
  | [] => 0
  | b :: rest => byte_val b + 256 * le_to_cpu rest
  end.

(** The [len] bytes at offset [off] of a buffer. *)
Definition bytes_at (off len : nat) (mem : list byte) : list byte :=
  firstn len (skipn off mem).

(** ** errno.h *)

Definition EINVAL : Z := 22.
Definition ENOMEM : Z := 12.
Definition MAX_ERRNO : Z := 4095.

(** <linux/fs.h>, on a 64-bit kernel. *)
Definition MAX_LFS_FILESIZE : Z := 0x7fffffffffffffff.

(** ** <linux/crc32c.h>

    [crc32c(crc, data, len)] is the kernel's bitwise-reflected CRC with the
    Castagnoli polynomial; it neither inverts the seed nor the result. *)

Definition CRC32C_POLY_LE : Z := 0x82F63B78.

Definition crc32c_bit (crc : Z) : Z :=
  Z.lxor (Z.shiftr crc 1) (if Z.testbit crc 0 then CRC32C_POLY_LE else 0).

Definition crc32c_byte (crc : Z) (b : byte) : Z :=
  let c := Z.lxor crc (byte_val b) in
  crc32c_bit (crc32c_bit (crc32c_bit (crc32c_bit
    (crc32c_bit (crc32c_bit (crc32c_bit (crc32c_bit c))))))).

Definition crc32c (crc : Z) (data : list byte) : Z :=
  fold_left crc32c_byte data crc.

(** ** format.h and super.h

    Neither header is part of this file: the constants and the layout of
    [struct scoutfs_super] that [super.c] uses are parameters. *)

Record format : Type := {
  SCOUTFS_BRICK_SIZE : nat;
  SCOUTFS_SUPER_BRICK : Z;
  SCOUTFS_SUPER_ID : Z;
  SCOUTFS_SUPER_MAGIC : Z;
  SCOUTFS_ROOT_INO : Z;
  sizeof_scoutfs_super : nat;     (* sizeof(struct scoutfs_super) *)
  offsetof_id : nat;              (* offsetof(struct scoutfs_super, id) *)
  offsetof_hdr_crc : nat;         (* offsetof(struct scoutfs_super, hdr.crc) *)
  offsetof_hdr_seq : nat;         (* offsetof(struct scoutfs_super, hdr.seq) *)
  nr_bloom_hash_keys : nat        (* ARRAY_SIZE(sbi->bloom_hash_keys) *)
}.

(** What C guarantees of the layout: the three fields lie inside the
    struct. *)
Definition layout_ok (F : format) : Prop :=
  (offsetof_id F + 8 <= sizeof_scoutfs_super F)%nat /\
  (offsetof_hdr_crc F + 4 <= sizeof_scoutfs_super F)%nat /\
  (offsetof_hdr_seq F + 8 <= sizeof_scoutfs_super F)%nat.

(** [struct scoutfs_sb_info]; the lock and the two rb-tree roots carry no
    data here, the trees are lists of items. *)
Record scoutfs_sb_info : Type := {
  super : list byte;              (* struct scoutfs_super super *)
  next_ino : Z;
  next_blkno : Z;
  bloom_hash_keys : list Z;
  item_root : list Z;
  dirty_item_root : list Z
}.

(** Field reads of a [struct scoutfs_super *]. *)
Definition super_id (F : format) (s : list byte) : Z :=
  le_to_cpu (bytes_at (offsetof_id F) 8 s).
Definition super_hdr_crc (F : format) (s : list byte) : Z :=
  le_to_cpu (bytes_at (offsetof_hdr_crc F) 4 s).
Definition super_hdr_seq (F : format) (s : list byte) : Z :=
  le_to_cpu (bytes_at (offsetof_hdr_seq F) 8 s).

(** ** The kernel as seen from super.c *)

(** Pointers returned by the kernel are 64-bit values; [ERR_PTR] encodes an
    errno in the top [MAX_ERRNO] values. *)
Definition IS_ERR (p : Z) : bool := 2 ^ 64 - MAX_ERRNO <=? u64 p.
Definition PTR_ERR (p : Z) : Z := s64 p.
Definition ERR_PTR (e : Z) : Z := u64 e.

Inductive slot_warning : Type :=
| couldnt_read                           (* "couldn't read super brick %u" *)
| invalid_id (id : Z)                    (* "super brick %u has invalid id %llx" *)
| bad_crc (crc expected : Z).            (* "super brick %u has bad crc %x (expected %x)" *)

Inductive event : Type :=
| ev_kzalloc (ok : bool)
| ev_sb_set_blocksize (size : nat) (ok : bool)
| ev_sb_bread (blkno : Z) (ok : bool)
| ev_brelse (blkno : Z)
| ev_warn (i : Z) (w : slot_warning)
| ev_err_no_super                        (* "unable to read valid super brick" *)
| ev_info_using (found : Z) (seq : Z)    (* "using super %u with seq %llu" *)
| ev_get_random_bytes (i : nat)
| ev_printk_blocksize                    (* "couldn't set blocksize" *)
| ev_scoutfs_iget (ino : Z) (res : Z)
| ev_d_make_root (inode : Z) (res : Z)
| ev_kill_block_super
| ev_kfree (live : bool).

(** The answers of the kernel and of the inode code to the calls of
    [super.c]. *)
Record kernel : Type := {
  kzalloc_ok : bool;                        (* kzalloc returns non-NULL *)
  sb_set_blocksize_ok : nat -> bool;        (* sb_set_blocksize returns non-zero *)
  disk : Z -> option (list byte);           (* b_data of sb_bread, None for NULL *)
  random_bytes : nat -> Z;                  (* get_random_bytes, by call *)
  iget : Z -> Z;                            (* scoutfs_iget(sb, ino) *)
  make_root : Z -> Z                        (* d_make_root(inode), 0 for NULL *)
}.

(** [struct super_block], the fields [super.c] writes. *)
Record super_block : Type := {
  s_magic : Z;
  s_maxbytes : Z;
  s_op_set : bool;                          (* s_op points to scoutfs_super_ops *)
  s_fs_info : bool;                         (* false for NULL *)
  s_blocksize : nat;
  s_root : Z
}.

(** The mount's memory: the super_block, the one object [kzalloc]
    returned ([None] before the allocation and after [kfree]), and the calls
    made so far, oldest first. *)
Record world : Type := {
  sb : super_block;
  sbi_mem : option scoutfs_sb_info;
  trace : list event
}.

(** ** A state monad with failure

    [None] is a dereference of memory that is not there. *)
Definition M (A : Type) : Type := world -> option (A * world).

Definition ret {A} (a : A) : M A := fun w => Some (a, w).
Definition bind {A B} (m : M A) (f : A -> M B) : M B :=
  fun w => match m w with
           | Some (a, w') => f a w'
           | None => None
           end.

Notation "x <- m ;; k" := (bind m (fun x => k))
  (at level 61, m at next level, right associativity).
Notation "m ;;; k" := (bind m (fun _ => k))
  (at level 61, right associativity).

Definition emit (e : event) : M unit :=
  fun w => Some (tt, {| sb := sb w; sbi_mem := sbi_mem w; trace := trace w ++ [e] |}).

(** [SCOUTFS_SB(sb)] followed by a read through the pointer. *)
Definition get_sbi : M scoutfs_sb_info :=
  fun w => match sbi_mem w with
           | Some s => Some (s, w)
           | None => None
           end.

Definition put_sbi (s : scoutfs_sb_info) : M unit :=
  fun w => match sbi_mem w with
           | Some _ => Some (tt, {| sb := sb w; sbi_mem := Some s; trace := trace w |})
           | None => None
           end.

Definition get_sb : M super_block := fun w => Some (sb w, w).

(** An assignment to fields of [*sb]. *)
Definition modify_sb (f : super_block -> super_block) : M unit :=
  fun w => Some (tt, {| sb := f (sb w); sbi_mem := sbi_mem w; trace := trace w |}).

Definition set_s_fs_info (p : bool) (b : super_block) : super_block :=
  {| s_magic := s_magic b; s_maxbytes := s_maxbytes b; s_op_set := s_op_set b;
     s_fs_info := p; s_blocksize := s_blocksize b; s_root := s_root b |}.

Definition set_s_blocksize (size : nat) (b : super_block) : super_block :=
  {| s_magic := s_magic b; s_maxbytes := s_maxbytes b; s_op_set := s_op_set b;
     s_fs_info := s_fs_info b; s_blocksize := size; s_root := s_root b |}.

Definition set_s_root (root : Z) (b : super_block) : super_block :=
  {| s_magic := s_magic b; s_maxbytes := s_maxbytes b; s_op_set := s_op_set b;
     s_fs_info := s_fs_info b; s_blocksize := s_blocksize b; s_root := root |}.

(** ** read_supers *)

(** The locals that live across iterations. *)
Record locals : Type := {
  bh : option Z;      (* the block a held buffer_head belongs to *)
  found : Z
}.

Definition brelse_if (b : option Z) : M unit :=
  match b with
  | Some blkno => emit (ev_brelse blkno)
  | None => ret tt
  end.

Definition sb_bread (K : kernel) (blkno : Z) : M (option (list byte)) :=
  match disk K blkno with
  | Some data => emit (ev_sb_bread blkno true) ;;; ret (Some data)
  | None => emit (ev_sb_bread blkno false) ;;; ret None
  end.

(** The bytes [crc32c] is called on:
    [(char * )&super->hdr.crc + sizeof(crc)], [SCOUTFS_BRICK_SIZE - sizeof(crc)]. *)
Definition crc_region (F : format) (data : list byte) : list byte :=
  bytes_at (offsetof_hdr_crc F + 4) (SCOUTFS_BRICK_SIZE F - 4) data.

Definition computed_crc (F : format) (data : list byte) : Z :=
  crc32c (u32 (Z.lnot 0)) (crc_region F data).

Definition memcpy_super (F : format) (s : scoutfs_sb_info) (data : list byte)
  : scoutfs_sb_info :=
  {| super := firstn (sizeof_scoutfs_super F) data;
     next_ino := next_ino s;
     next_blkno := next_blkno s;
     bloom_hash_keys := bloom_hash_keys s;
     item_root := item_root s;
     dirty_item_root := dirty_item_root s |}.

(** One iteration of [for (i = 0; i < 2; i++)]; each early [ret] is a
    [continue]. *)
Definition read_supers_body (K : kernel) (F : format) (i : Z) (l : locals)
  : M locals :=
  brelse_if (bh l) ;;;
  b <- sb_bread K (SCOUTFS_SUPER_BRICK F + i) ;;
  match b with
  | None =>
      emit (ev_warn i couldnt_read) ;;;
      ret {| bh := None; found := found l |}
  | Some data =>
      let held := Some (SCOUTFS_SUPER_BRICK F + i) in
      if negb (super_id F data =? u64 (SCOUTFS_SUPER_ID F)) then
        emit (ev_warn i (invalid_id (super_id F data))) ;;;
        ret {| bh := held; found := found l |}
      else
        let crc := computed_crc F data in
        if negb (crc =? super_hdr_crc F data) then
          emit (ev_warn i (bad_crc crc (super_hdr_crc F data))) ;;;
          ret {| bh := held; found := found l |}
        else
          s <- get_sbi ;;
          if (found l <? 0) ||
             (super_hdr_seq F data >? super_hdr_seq F (super s)) then
            put_sbi (memcpy_super F s data) ;;;
            ret {| bh := held; found := i |}
          else
            ret {| bh := held; found := found l |}
  end.

(** [for (i = start; ...; i++)] run for [n] iterations. *)
Fixpoint for_loop {S : Type} (n : nat) (i : Z) (body : Z -> S -> M S) (s : S)
  : M S :=
  match n with
  | O => ret s
  | Datatypes.S n' => s' <- body i s ;; for_loop n' (i + 1) body s'
  end.

Fixpoint set_nth {A} (n : nat) (a : A) (l : list A) : list A :=
  match l, n with
  | [], _ => []
  | _ :: t, O => a :: t
  | h :: t, Datatypes.S n' => h :: set_nth n' a t
  end.

(** [get_random_bytes(&sbi->bloom_hash_keys[i], ...)]. *)
Definition fill_bloom_key (K : kernel) (i : Z) (u : unit) : M unit :=
  s <- get_sbi ;;
  emit (ev_get_random_bytes (Z.to_nat i)) ;;;
  put_sbi {| super := super s;
             next_ino := next_ino s;
             next_blkno := next_blkno s;
             bloom_hash_keys :=
               set_nth (Z.to_nat i) (random_bytes K (Z.to_nat i)) (bloom_hash_keys s);
             item_root := item_root s;
             dirty_item_root := dirty_item_root s |}.

Definition atomic64_set_next_ino (v : Z) : M unit :=
  s <- get_sbi ;;
  put_sbi {| super := super s; next_ino := s64 v; next_blkno := next_blkno s;
             bloom_hash_keys := bloom_hash_keys s;
             item_root := item_root s; dirty_item_root := dirty_item_root s |}.

Definition atomic64_set_next_blkno (v : Z) : M unit :=
  s <- get_sbi ;;
  put_sbi {| super := super s; next_ino := next_ino s; next_blkno := s64 v;
             bloom_hash_keys := bloom_hash_keys s;
             item_root := item_root s; dirty_item_root := dirty_item_root s |}.

Definition read_supers (K : kernel) (F : format) : M Z :=
  l <- for_loop 2 0 (read_supers_body K F) {| bh := None; found := -1 |} ;;
  brelse_if (bh l) ;;;
  if found l <? 0 then
    emit ev_err_no_super ;;;
    ret (- EINVAL)
  else
    s <- get_sbi ;;
    emit (ev_info_using (found l) (super_hdr_seq F (super s))) ;;;
    atomic64_set_next_ino (SCOUTFS_ROOT_INO F + 1) ;;;
    atomic64_set_next_blkno 2 ;;;
    for_loop (nr_bloom_hash_keys F) 0 (fill_bloom_key K) tt ;;;
    ret 0.

(** ** scoutfs_fill_super, scoutfs_kill_sb, scoutfs_mount *)

(** The object [kzalloc] returns: all bytes zero. *)
Definition zeroed_sbi (F : format) : scoutfs_sb_info :=
  {| super := repeat x00 (sizeof_scoutfs_super F);
     next_ino := 0;
     next_blkno := 0;
     bloom_hash_keys := repeat 0 (nr_bloom_hash_keys F);
     item_root := [];
     dirty_item_root := [] |}.

(** [kzalloc(sizeof(struct scoutfs_sb_info), GFP_KERNEL)]; the result says
    whether the pointer is non-NULL. *)
Definition kzalloc (K : kernel) (F : format) : M bool :=
  fun w =>
    if kzalloc_ok K then
      Some (true, {| sb := sb w; sbi_mem := Some (zeroed_sbi F);
                     trace := trace w ++ [ev_kzalloc true] |})
    else
      Some (false, {| sb := sb w; sbi_mem := sbi_mem w;
                      trace := trace w ++ [ev_kzalloc false] |}).

(** [sb_set_blocksize(sb, size)] returns the size it set, or 0; the result
    says whether that is non-zero. *)
Definition sb_set_blocksize (K : kernel) (size : nat) : M bool :=
  if sb_set_blocksize_ok K size && negb (Nat.eqb size 0) then
    modify_sb (set_s_blocksize size) ;;;
    emit (ev_sb_set_blocksize size true) ;;;
    ret true
  else
    emit (ev_sb_set_blocksize size false) ;;;
    ret false.

Definition scoutfs_iget (K : kernel) (ino : Z) : M Z :=
  emit (ev_scoutfs_iget ino (iget K ino)) ;;;
  ret (iget K ino).

Definition d_make_root (K : kernel) (inode : Z) : M Z :=
  emit (ev_d_make_root inode (make_root K inode)) ;;;
  ret (make_root K inode).

Definition scoutfs_fill_super (K : kernel) (F : format) : M Z :=
  modify_sb (fun b =>
    {| s_magic := SCOUTFS_SUPER_MAGIC F; s_maxbytes := MAX_LFS_FILESIZE;
       s_op_set := true; s_fs_info := s_fs_info b;
       s_blocksize := s_blocksize b; s_root := s_root b |}) ;;;
  sbi <- kzalloc K F ;;
  modify_sb (set_s_fs_info sbi) ;;;
  if negb sbi then
    ret (- ENOMEM)
  else
    (* spin_lock_init, item_root = RB_ROOT, dirty_item_root = RB_ROOT *)
    s <- get_sbi ;;
    put_sbi {| super := super s; next_ino := next_ino s;
               next_blkno := next_blkno s;
               bloom_hash_keys := bloom_hash_keys s;
               item_root := []; dirty_item_root := [] |} ;;;
    ok <- sb_set_blocksize K (SCOUTFS_BRICK_SIZE F) ;;
    if negb ok then
      emit ev_printk_blocksize ;;;
      ret (- EINVAL)
    else
      r <- read_supers K F ;;
      if negb (r =? 0) then
        ret r
      else
        inode <- scoutfs_iget K (SCOUTFS_ROOT_INO F) ;;
        if IS_ERR inode then
          ret (PTR_ERR inode)
        else
          root <- d_make_root K inode ;;
          modify_sb (set_s_root (u64 root)) ;;;
          if u64 root =? 0 then
            ret (- ENOMEM)
          else
            ret 0.

(** [kfree(p)]: nothing for NULL, the object is gone otherwise; freeing an
    object that is not there has no result. *)
Definition kfree (p : bool) : M unit :=
  fun w =>
    if p then
      match sbi_mem w with
      | Some _ => Some (tt, {| sb := sb w; sbi_mem := None;
                               trace := trace w ++ [ev_kfree true] |})
      | None => None
      end
    else
      Some (tt, {| sb := sb w; sbi_mem := sbi_mem w;
                   trace := trace w ++ [ev_kfree false] |}).

Definition scoutfs_kill_sb : M unit :=
  emit ev_kill_block_super ;;;
  b <- get_sb ;;
  kfree (s_fs_info b).

(** [mount_bdev] belongs to the kernel.  Of what it does, this is the part
    [super.c] relies on: it runs [fill_super] on a new super_block; when
    that returns an error it drops the super_block, which calls the file
    system type's [kill_sb], and returns [ERR_PTR(error)]; otherwise it
    returns the root dentry. *)
Definition mount_bdev (fill_super : M Z) (kill_sb : M unit) : M Z :=
  error <- fill_super ;;
  if negb (error =? 0) then
    kill_sb ;;;
    ret (ERR_PTR error)
  else
    b <- get_sb ;;
    ret (s_root b).

(** [scoutfs_mount], with [.kill_sb = scoutfs_kill_sb] of
    [scoutfs_fs_type]. *)
Definition scoutfs_mount (K : kernel) (F : format) : M Z :=
  mount_bdev (scoutfs_fill_super K F) scoutfs_kill_sb.

(** The super_block [sget] hands to [fill_super], nothing allocated, no
    calls made. *)
Definition new_world : world :=
  {| sb := {| s_magic := 0; s_maxbytes := 0; s_op_set := false;
              s_fs_info := false; s_blocksize := 0; s_root := 0 |};
     sbi_mem := None;
     trace := [] |}.

(** ** An instance of the format, and bricks written in it *)

Definition byte_of_Z (z : Z) : byte :=
  match Byte.of_N (Z.to_N (z mod 256)) with
  | Some b => b
  | None => x00
  end.

(** [cpu_to_leNN]: the [n] low bytes of [z], lowest first. *)
Fixpoint cpu_to_le (n : nat) (z : Z) : list byte :=
  match n with
  | O => []
  | S n' => byte_of_Z z :: cpu_to_le n' (z / 256)
  end.

(** A brick header of 32 bytes (crc, pad, fsid, seq, nr) followed by the
    id, on bricks of 4096 bytes. *)
Definition example_format : format :=
  {| SCOUTFS_BRICK_SIZE := 4096;
     SCOUTFS_SUPER_BRICK := 16;
     SCOUTFS_SUPER_ID := 0x2e736374666f7573;
     SCOUTFS_SUPER_MAGIC := 0x554f4353;
     SCOUTFS_ROOT_INO := 1;
     sizeof_scoutfs_super := 96;
     offsetof_id := 32;
     offsetof_hdr_crc := 0;
     offsetof_hdr_seq := 16;
     nr_bloom_hash_keys := 3 |}.

(** Everything of a brick after the crc: sequence [seq], id [id], and the
    rest filled with [fill]. *)
Definition example_body (seq id : Z) (fill : byte) : list byte :=
  cpu_to_le 4 0 ++ cpu_to_le 8 7 ++ cpu_to_le 8 seq ++ cpu_to_le 8 0 ++
  cpu_to_le 8 id ++ repeat fill (4096 - 40).

(** A brick as a writer would commit it, with the crc of its body. *)
Definition example_brick (seq : Z) (fill : byte) : list byte :=
  let body := example_body seq (SCOUTFS_SUPER_ID example_format) fill in
  cpu_to_le 4 (crc32c (u32 (Z.lnot 0)) body) ++ body.

(** The same with a crc that is off by one. *)
Definition example_brick_bad_crc (seq : Z) (fill : byte) : list byte :=
  let body := example_body seq (SCOUTFS_SUPER_ID example_format) fill in
  cpu_to_le 4 (crc32c (u32 (Z.lnot 0)) body + 1) ++ body.

(** The same with a wrong id (and the crc of that body). *)
Definition example_brick_bad_id (seq : Z) (fill : byte) : list byte :=
  let body := example_body seq 0x1234 fill in
  cpu_to_le 4 (crc32c (u32 (Z.lnot 0)) body) ++ body.

(** A kernel in which every call succeeds, over the two given slots. *)
Definition example_kernel (slot0 slot1 : option (list byte)) : kernel :=
  {| kzalloc_ok := true;
     sb_set_blocksize_ok := fun _ => true;
     disk := fun blkno =>
       if blkno =? 16 then slot0 else if blkno =? 17 then slot1 else None;
     random_bytes := fun i => 1000 + Z.of_nat i;
     iget := fun ino => 0xffff880000001000 + ino;
     make_root := fun inode => 0xffff880000002000 |}.

(** ** What the statements are about *)

(** The two tests of [read_supers] a brick has to pass: the id, then the
    crc. *)
Definition valid_super (F : format) (data : list byte) : bool :=
  (super_id F data =? u64 (SCOUTFS_SUPER_ID F)) &&
  (computed_crc F data =? super_hdr_crc F data).

(** The calls of the scan over the slots, and of the drawing of keys. *)
Definition scan_event (e : event) : bool :=
  match e with
  | ev_sb_bread _ _ | ev_brelse _ | ev_warn _ _ => true
  | _ => false
  end.

Definition random_event (e : event) : bool :=
  match e with
  | ev_get_random_bytes _ => true
  | _ => false
  end.

(** [w'] is [w] with the same super_block after the calls [ts]. *)
Definition grows_by (w w' : world) (ts : list event) : Prop :=
  sb w' = sb w /\ trace w' = trace w ++ ts.

Definition release_events (b : option Z) : list event :=
  match b with
  | Some blkno => [ev_brelse blkno]
  | None => []
  end.

Section Selection.

Variable K : kernel.
Variable F : format.

(** Slot [i] reads and holds the valid brick [data]. *)
Definition slot_valid (i : Z) (data : list byte) : Prop :=
  disk K (SCOUTFS_SUPER_BRICK F + i) = Some data /\ valid_super F data = true.

(** Slot [i] does not read, or holds a brick that fails a test. *)
Definition slot_faulty (i : Z) : Prop :=
  match disk K (SCOUTFS_SUPER_BRICK F + i) with
  | Some data => valid_super F data = false
  | None => True
  end.

Definition no_valid_below (n : Z) : Prop :=
  forall j d, 0 <= j < n -> ~ slot_valid j d.

(** Slot [f] holds [data], valid, whose sequence no valid slot below [n]
    exceeds, and no valid slot before [f] reaches. *)
Definition best_below (n f : Z) (data : list byte) : Prop :=
  0 <= f < n /\ slot_valid f data /\
  forall j d, 0 <= j < n -> slot_valid j d ->
    super_hdr_seq F d <= super_hdr_seq F data /\
    (super_hdr_seq F d = super_hdr_seq F data -> f <= j).

(** The state of the scan before slot [n], started on the context [s0]. *)
Definition scan_inv (s0 : scoutfs_sb_info) (n : Z) (l : locals) (w : world)
  : Prop :=
  (found l = -1 /\ sbi_mem w = Some s0 /\ no_valid_below n) \/
  (exists data, best_below n (found l) data /\
                sbi_mem w = Some (memcpy_super F s0 data)).

(** The calls [ts] show that slot [k] was read, and warned about when the
    read failed. *)
Definition slot_read_logged (k : Z) (ts : list event) : Prop :=
  match disk K (SCOUTFS_SUPER_BRICK F + k) with
  | Some _ => In (ev_sb_bread (SCOUTFS_SUPER_BRICK F + k) true) ts
  | None => In (ev_sb_bread (SCOUTFS_SUPER_BRICK F + k) false) ts /\
            In (ev_warn k couldnt_read) ts
  end.

(** [s'] is the context [s0] after a successful [read_supers] that chose
    the brick [data]: it holds the leading [sizeof(struct scoutfs_super)]
    bytes of the brick and the two seeded counters; the trees are as they
    were and there are as many bloom keys as before. *)
Definition selected (s0 s' : scoutfs_sb_info) (data : list byte) : Prop :=
  super s' = firstn (sizeof_scoutfs_super F) data /\
  next_ino s' = s64 (SCOUTFS_ROOT_INO F + 1) /\
  next_blkno s' = s64 2 /\
  item_root s' = item_root s0 /\
  dirty_item_root s' = dirty_item_root s0 /\
  length (bloom_hash_keys s') = length (bloom_hash_keys s0).

End Selection.

(** [sb_set_blocksize(sb, SCOUTFS_BRICK_SIZE)] returns non-zero. *)
Definition blocksize_supported (K : kernel) (F : format) : bool :=
  sb_set_blocksize_ok K (SCOUTFS_BRICK_SIZE F) &&
  negb (Nat.eqb (SCOUTFS_BRICK_SIZE F) 0).

(** The super_block once [s_fs_info] is assigned. *)
Definition sb_after_alloc (F : format) (sbi : bool) (bs : nat) : super_block :=
  {| s_magic := SCOUTFS_SUPER_MAGIC F; s_maxbytes := MAX_LFS_FILESIZE;
     s_op_set := true; s_fs_info := sbi; s_blocksize := bs; s_root := 0 |}.

(** The memory on which [scoutfs_fill_super] calls [read_supers]. *)
Definition world_at_selection (F : format) : world :=
  {| sb := sb_after_alloc F true (SCOUTFS_BRICK_SIZE F);
     sbi_mem := Some (zeroed_sbi F);
     trace := [ev_kzalloc true;
               ev_sb_set_blocksize (SCOUTFS_BRICK_SIZE F) true] |}.

(** What a successful [read_supers] leaves behind, started on the context
    [s0] in the memory [w]: the context [s'] holds the brick [data] of slot
    [f], and the calls were a scan [ts], the report of slot [f] with its
    sequence, and the drawing of keys [tr]. *)
Definition chose (K : kernel) (F : format) (w : world) (s0 : scoutfs_sb_info)
  (w' : world) (f : Z) (data : list byte) (s' : scoutfs_sb_info)
  (ts tr : list event) : Prop :=
  sb w' = sb w /\
  sbi_mem w' = Some s' /\
  selected F s0 s' data /\
  best_below K F 2 f data /\
  forallb scan_event ts = true /\
  forallb random_event tr = true /\
  (forall k, 0 <= k < 2 -> slot_read_logged K F k ts) /\
  trace w' = trace w ++ ts ++ ev_info_using f (super_hdr_seq F data) :: tr.

(** No call of the trace resolves an inode or attaches a root. *)
Definition no_root_calls (t : list event) : Prop :=
  forall e, In e t ->
    match e with
    | ev_scoutfs_iget _ _ | ev_d_make_root _ _ => False
    | _ => True
    end.

(** Every byte of the brick except the four of [hdr.crc]. *)
Definition all_but_crc (F : format) (data : list byte) : list byte :=
  firstn (offsetof_hdr_crc F) data ++ skipn (offsetof_hdr_crc F + 4) data.

(** The brick has the size the block size was set to, and the bytes
    [crc32c] is called on lie inside it. *)
Definition crc_call_in_bounds (F : format) (data : list byte) : Prop :=
  length data = SCOUTFS_BRICK_SIZE F /\
  (4 <= SCOUTFS_BRICK_SIZE F)%nat /\
  (offsetof_hdr_crc F + 4 + (SCOUTFS_BRICK_SIZE F - 4) <= length data)%nat.

(** The stage order in which the block size comes first: whenever the
    context is allocated, the block size has been set before. *)
Definition blocksize_before_alloc (F : format) (t : list event) : Prop :=
  forall pre ok post,
    t = pre ++ ev_kzalloc ok :: post ->
    In (ev_sb_set_blocksize (SCOUTFS_BRICK_SIZE F) true) pre.

(** A kernel that cannot set the block size. *)
Definition example_kernel_no_blocksize : kernel :=
  {| kzalloc_ok := true;
     sb_set_blocksize_ok := fun _ => false;
     disk := fun _ => None;
     random_bytes := fun _ => 0;
     iget := fun ino => 0xffff880000001000 + ino;
     make_root := fun inode => 0xffff880000002000 |}.

(** A kernel whose [scoutfs_iget] returns [ERR_PTR(-ENOMEM)], over one
    valid slot. *)
Definition example_kernel_no_root : kernel :=
  {| kzalloc_ok := true;
     sb_set_blocksize_ok := fun _ => true;
     disk := fun blkno =>
       if blkno =? 16 then Some (example_brick 5 x00) else None;
     random_bytes := fun i => 1000 + Z.of_nat i;
     iget := fun ino => ERR_PTR (- ENOMEM);
     make_root := fun inode => 0xffff880000002000 |}.

(** The memory a run started in [w] ends in. *)
Definition world_of {A} (m : M A) (w : world) : world :=
  match m w with
  | Some (_, w') => w'
  | None => w
  end.

(** The result and the calls of a run. *)
Definition outcome (m : M Z) (w : world) : option (Z * list event) :=
  match m w with
  | Some (r, w') => Some (r, trace w')
  | None => None
  end.

(** Modelled from the spec: the allocator of inode numbers, which is part
    of the inode code and not of super.c.  The spec calls [next_ino] a
    monotonically increasing allocation counter, seeded at mount: a number
    handed out is the value of the counter, and the counter is one more
    afterwards. *)
Definition alloc_ino (s : scoutfs_sb_info) : Z * scoutfs_sb_info :=
  (next_ino s,
   {| super := super s; next_ino := next_ino s + 1;
      next_blkno := next_blkno s; bloom_hash_keys := bloom_hash_keys s;
      item_root := item_root s; dirty_item_root := dirty_item_root s |}).

(** The numbers handed out by [n] allocations in a row. *)
Fixpoint alloc_inos (n : nat) (s : scoutfs_sb_info) : list Z :=
  match n with
  | O => []
  | S n' => fst (alloc_ino s) :: alloc_inos n' (snd (alloc_ino s))
  end.

(** ** The log of a scan, buffers and keys *)

(** What is wrong with slot [i], in the order [read_supers] tests it: the
    read, then the id, then the crc; [None] for a slot that passes. *)
Definition slot_fault (K : kernel) (F : format) (i : Z) : option slot_warning :=
  match disk K (SCOUTFS_SUPER_BRICK F + i) with
  | None => Some couldnt_read
  | Some data =>
      if negb (super_id F data =? u64 (SCOUTFS_SUPER_ID F)) then
        Some (invalid_id (super_id F data))
      else if negb (computed_crc F data =? super_hdr_crc F data) then
        Some (bad_crc (computed_crc F data) (super_hdr_crc F data))
      else None
  end.

Definition fault_warning (K : kernel) (F : format) (i : Z) : list event :=
  match slot_fault K F i with
  | Some f => [ev_warn i f]
  | None => []
  end.

(** The buffer head held after slot [i] was read. *)
Definition slot_held (K : kernel) (F : format) (i : Z) : option Z :=
  match disk K (SCOUTFS_SUPER_BRICK F + i) with
  | Some _ => Some (SCOUTFS_SUPER_BRICK F + i)
  | None => None
  end.

Definition slot_read_ok (K : kernel) (F : format) (i : Z) : bool :=
  match disk K (SCOUTFS_SUPER_BRICK F + i) with
  | Some _ => true
  | None => false
  end.

(** The calls one iteration makes once the previous buffer is released. *)
Definition slot_events (K : kernel) (F : format) (i : Z) : list event :=
  ev_sb_bread (SCOUTFS_SUPER_BRICK F + i) (slot_read_ok K F i) ::
  fault_warning K F i.

(** The calls of the whole scan, the release after the loop included. *)
Definition scan_trace (K : kernel) (F : format) : list event :=
  slot_events K F 0 ++ release_events (slot_held K F 0) ++
  slot_events K F 1 ++ release_events (slot_held K F 1).

(** The bloom keys after the [n] draws for the indices [i], [i + 1], ... *)
Fixpoint draw_keys (K : kernel) (n i : nat) (keys : list Z) : list Z :=
  match n with
  | O => keys
  | S n' => draw_keys K n' (S i) (set_nth i (random_bytes K i) keys)
  end.

(** A log replayed against the buffer head in hand: a read takes one, a
    release gives back the one in hand; taking a second one, or giving back
    one that is not in hand, has no result. *)
Fixpoint buffers (held : option Z) (t : list event) : option (option Z) :=
  match t with
  | [] => Some held
  | ev_sb_bread blkno true :: t' =>
      match held with
      | None => buffers (Some blkno) t'
      | Some _ => None
      end
  | ev_brelse blkno :: t' =>
      match held with
      | Some b => if b =? blkno then buffers None t' else None
      | None => None
      end
  | _ :: t' => buffers held t'
  end.

Definition is_bread (e : event) : bool :=
  match e with
  | ev_sb_bread _ _ => true
  | _ => false
  end.

Definition is_warn (e : event) : bool :=
  match e with
  | ev_warn _ _ => true
  | _ => false
  end.

(** The other kernel: the two slots exchanged. *)
Definition swap_slots (K : kernel) (F : format) : kernel :=
  {| kzalloc_ok := kzalloc_ok K;
     sb_set_blocksize_ok := sb_set_blocksize_ok K;
     disk := fun blkno =>
       if blkno =? SCOUTFS_SUPER_BRICK F then disk K (SCOUTFS_SUPER_BRICK F + 1)
       else if blkno =? SCOUTFS_SUPER_BRICK F + 1
            then disk K (SCOUTFS_SUPER_BRICK F + 0)
            else disk K blkno;
     random_bytes := random_bytes K;
     iget := iget K;
     make_root := make_root K |}.

(** The context after a [read_supers] that started on the zeroed context
    and chose the brick [data]. *)
Definition selected_ctx (K : kernel) (F : format) (data : list byte)
  : scoutfs_sb_info :=
  {| super := firstn (sizeof_scoutfs_super F) data;
     next_ino := s64 (SCOUTFS_ROOT_INO F + 1);
     next_blkno := s64 2;
     bloom_hash_keys :=
       draw_keys K (nr_bloom_hash_keys F) 0 (repeat 0 (nr_bloom_hash_keys F));
     item_root := [];
     dirty_item_root := [] |}.

(** The calls of [scoutfs_fill_super] up to the return of a [read_supers]
    that chose the brick [data] of slot [f]. *)
Definition selection_log (K : kernel) (F : format) (f : Z) (data : list byte)
  : list event :=
  [ev_kzalloc true; ev_sb_set_blocksize (SCOUTFS_BRICK_SIZE F) true] ++
  scan_trace K F ++
  ev_info_using f (super_hdr_seq F data) ::
  map ev_get_random_bytes (seq 0 (nr_bloom_hash_keys F)).

(** Some slot holds a valid brick. *)
Definition some_slot_valid (K : kernel) (F : format) : Prop :=
  exists i d, 0 <= i < 2 /\ slot_valid K F i d.


(** ** Module init and exit *)

(** The calls [scoutfs_module_init] and [scoutfs_module_exit] make. *)
Inductive module_call : Type :=
| call_scoutfs_inode_init
| call_scoutfs_dir_init
| call_register_filesystem
| call_unregister_filesystem
| call_scoutfs_dir_exit
| call_scoutfs_inode_exit.

(** What the three calls of [scoutfs_module_init] return. *)
Record module_env : Type := {
  scoutfs_inode_init_ret : Z;
  scoutfs_dir_init_ret : Z;
  register_filesystem_ret : Z
}.

(** [a ?: b] on calls that return an int and are logged: [b] is called
    only when [a] returned 0. *)
Definition elvis (a b : Z * list module_call) : Z * list module_call :=
  if fst a =? 0 then (fst b, snd a ++ snd b) else a.

Definition scoutfs_module_init (E : module_env) : Z * list module_call :=
  elvis (scoutfs_inode_init_ret E, [call_scoutfs_inode_init])
    (elvis (scoutfs_dir_init_ret E, [call_scoutfs_dir_init])
       (register_filesystem_ret E, [call_register_filesystem])).

Definition scoutfs_module_exit : list module_call :=
  [call_unregister_filesystem; call_scoutfs_dir_exit; call_scoutfs_inode_exit].

(** The call that undoes an init call; an exit call undoes nothing. *)
Definition undo (c : module_call) : option module_call :=
  match c with
  | call_scoutfs_inode_init => Some call_scoutfs_inode_exit
  | call_scoutfs_dir_init => Some call_scoutfs_dir_exit
  | call_register_filesystem => Some call_unregister_filesystem
  | _ => None
  end.

(** ** Lemmas on the monad and on fields *)

Arguments super_id : simpl never.
Arguments super_hdr_crc : simpl never.
Arguments super_hdr_seq : simpl never.
Arguments computed_crc : simpl never.
Arguments memcpy_super : simpl never.
Arguments u64 : simpl never.
Arguments s64 : simpl never.

Lemma brelse_if_run o b m t :
  brelse_if o {| sb := b; sbi_mem := m; trace := t |} =
  Some (tt, {| sb := b; sbi_mem := m; trace := t ++ release_events o |}).
Proof.
  destruct o; cbn; [reflexivity|]. now rewrite app_nil_r.
Qed.

Lemma release_events_scan o : forallb scan_event (release_events o) = true.
Proof.
  now destruct o.
Qed.

Lemma bytes_at_firstn off len n (mem : list byte) :
  (off + len <= n)%nat ->
  bytes_at off len (firstn n mem) = bytes_at off len mem.
Proof.
  intros H. unfold bytes_at.
  rewrite skipn_firstn_comm, firstn_firstn.
  f_equal. lia.
Qed.

Lemma seq_of_copy F s data :
  layout_ok F ->
  super_hdr_seq F (super (memcpy_super F s data)) = super_hdr_seq F data.
Proof.
  intros (_ & _ & H). unfold super_hdr_seq.
  change (super (memcpy_super F s data))
    with (firstn (sizeof_scoutfs_super F) data).
  now rewrite bytes_at_firstn.
Qed.

Section SelectionProofs.

Variable K : kernel.
Variable F : format.
Hypothesis layout : layout_ok F.

Lemma slot_valid_fun i d d' :
  slot_valid K F i d -> slot_valid K F i d' -> d = d'.
Proof.
  intros [H _] [H' _]. congruence.
Qed.

Lemma slot_faulty_not_valid i :
  slot_faulty K F i <-> (forall d, ~ slot_valid K F i d).
Proof.
  unfold slot_faulty, slot_valid. split.
  - intros Hf d [Hd Hv]. rewrite Hd in Hf. congruence.
  - intros Hn. destruct (disk K (SCOUTFS_SUPER_BRICK F + i)) as [d|]; [|exact I].
    destruct (valid_super F d) eqn:E; [|reflexivity].
    exfalso. apply (Hn d). auto.
Qed.

Lemma no_valid_step n :
  no_valid_below K F n ->
  (forall d, ~ slot_valid K F n d) ->
  no_valid_below K F (n + 1).
Proof.
  intros Hn Hs j d Hj. destruct (Z.eq_dec j n) as [->|Hne].
  - apply Hs.
  - apply Hn. lia.
Qed.

Lemma best_below_skip n f data :
  best_below K F n f data ->
  (forall d, ~ slot_valid K F n d) ->
  best_below K F (n + 1) f data.
Proof.
  intros (Hf & Hv & Hall) Hs. split; [lia|]. split; [assumption|].
  intros j d Hj Hjv. destruct (Z.eq_dec j n) as [->|Hne].
  - exfalso. eapply Hs; eassumption.
  - apply Hall; [lia|assumption].
Qed.

Lemma scan_inv_skip s0 n l l' b m t t' :
  found l' = found l ->
  (forall d, ~ slot_valid K F n d) ->
  scan_inv K F s0 n l {| sb := b; sbi_mem := m; trace := t |} ->
  scan_inv K F s0 (n + 1) l' {| sb := b; sbi_mem := m; trace := t' |}.
Proof.
  intros Hfound Hs [(Hf & Hm & Hn)|(data & Hbest & Hm)].
  - left. rewrite Hfound. auto using no_valid_step.
  - right. exists data. rewrite Hfound. auto using best_below_skip.
Qed.

(** A valid slot met while nothing was found yet becomes the best. *)
Lemma best_below_first n data :
  0 <= n ->
  no_valid_below K F n ->
  slot_valid K F n data ->
  best_below K F (n + 1) n data.
Proof.
  intros Hn Hnone Hv. split; [lia|]. split; [assumption|].
  intros j d Hj Hjv. destruct (Z.eq_dec j n) as [->|Hne].
  - rewrite (slot_valid_fun _ _ _ Hjv Hv). split; [lia|reflexivity].
  - exfalso. apply (Hnone j d); [lia|assumption].
Qed.

(** A valid slot with a strictly greater sequence replaces the best. *)
Lemma best_below_replace n f d0 data :
  best_below K F n f d0 ->
  slot_valid K F n data ->
  super_hdr_seq F d0 < super_hdr_seq F data ->
  best_below K F (n + 1) n data.
Proof.
  intros (Hf & Hv0 & Hall) Hv Hlt. split; [lia|]. split; [assumption|].
  intros j d Hj Hjv. destruct (Z.eq_dec j n) as [->|Hne].
  - rewrite (slot_valid_fun _ _ _ Hjv Hv). split; [lia|reflexivity].
  - destruct (Hall j d) as [Hle _]; [lia|assumption|]. split; lia.
Qed.

(** A valid slot with an equal or lesser sequence is discarded. *)
Lemma best_below_keep n f d0 data :
  best_below K F n f d0 ->
  slot_valid K F n data ->
  super_hdr_seq F data <= super_hdr_seq F d0 ->
  best_below K F (n + 1) f d0.
Proof.
  intros (Hf & Hv0 & Hall) Hv Hle. split; [lia|]. split; [assumption|].
  intros j d Hj Hjv. destruct (Z.eq_dec j n) as [->|Hne].
  - rewrite (slot_valid_fun _ _ _ Hjv Hv). split; [assumption|lia].
  - apply Hall; [lia|assumption].
Qed.

Ltac trace_eq := cbn; rewrite <- ?app_assoc; reflexivity.

(** One iteration returns, keeps the invariant, and makes the calls of a
    scan, the read of slot [i] among them. *)
Lemma read_supers_body_inv s0 i l w :
  0 <= i ->
  scan_inv K F s0 i l w ->
  exists l' w' ts,
    read_supers_body K F i l w = Some (l', w') /\
    scan_inv K F s0 (i + 1) l' w' /\
    grows_by w w' ts /\
    forallb scan_event ts = true /\
    slot_read_logged K F i ts.
Proof.
  intros Hi Hinv. destruct w as [b m t].
  unfold read_supers_body, bind, sb_bread, slot_read_logged.
  rewrite brelse_if_run.
  pose proof (release_events_scan (bh l)) as Hrel.
  destruct (disk K (SCOUTFS_SUPER_BRICK F + i)) as [data|] eqn:Hdisk.
  2:{ cbn. do 2 eexists.
      exists (release_events (bh l) ++
              [ev_sb_bread (SCOUTFS_SUPER_BRICK F + i) false;
               ev_warn i couldnt_read]).
      split; [reflexivity|]. split; [|split; [|split]].
      - apply scan_inv_skip with (l := l) (t := t); [reflexivity| |assumption].
        intros d [Hd _]. congruence.
      - split; trace_eq.
      - now rewrite forallb_app, Hrel.
      - split; apply in_or_app; right; cbn; auto. }
  cbn -[Z.add].
  destruct (super_id F data =? u64 (SCOUTFS_SUPER_ID F)) eqn:Hid; cbn -[Z.add].
  2:{ do 2 eexists.
      exists (release_events (bh l) ++
              [ev_sb_bread (SCOUTFS_SUPER_BRICK F + i) true;
               ev_warn i (invalid_id (super_id F data))]).
      split; [reflexivity|]. split; [|split; [|split]].
      - apply scan_inv_skip with (l := l) (t := t); [reflexivity| |assumption].
        intros d [Hd Hv]. assert (d = data) by congruence. subst d.
        unfold valid_super in Hv. rewrite Hid in Hv. discriminate.
      - split; trace_eq.
      - now rewrite forallb_app, Hrel.
      - apply in_or_app; right; cbn; auto. }
  destruct (computed_crc F data =? super_hdr_crc F data) eqn:Hcrc; cbn -[Z.add].
  2:{ do 2 eexists.
      exists (release_events (bh l) ++
              [ev_sb_bread (SCOUTFS_SUPER_BRICK F + i) true;
               ev_warn i (bad_crc (computed_crc F data) (super_hdr_crc F data))]).
      split; [reflexivity|]. split; [|split; [|split]].
      - apply scan_inv_skip with (l := l) (t := t); [reflexivity| |assumption].
        intros d [Hd Hv]. assert (d = data) by congruence. subst d.
        unfold valid_super in Hv. rewrite Hid, Hcrc in Hv. discriminate.
      - split; trace_eq.
      - now rewrite forallb_app, Hrel.
      - apply in_or_app; right; cbn; auto. }
  assert (Hv : slot_valid K F i data).
  { split; [assumption|]. unfold valid_super. now rewrite Hid, Hcrc. }
  assert (Hts : forallb scan_event
            (release_events (bh l) ++
             [ev_sb_bread (SCOUTFS_SUPER_BRICK F + i) true]) = true).
  { now rewrite forallb_app, Hrel. }
  assert (Hlog : In (ev_sb_bread (SCOUTFS_SUPER_BRICK F + i) true)
            (release_events (bh l) ++
             [ev_sb_bread (SCOUTFS_SUPER_BRICK F + i) true])).
  { apply in_or_app; right; cbn; auto. }
  unfold get_sbi. cbn -[Z.add].
  destruct Hinv as [(Hf & Hm & Hn)|(d0 & Hbest & Hm)]; cbn in Hm; subst m.
  - rewrite Hf. cbn -[Z.add].
    do 3 eexists. split; [reflexivity|]. split; [|split; [|split]];
      [|split; trace_eq|exact Hts|exact Hlog].
    right. exists data. split; [|reflexivity].
    now apply best_below_first.
  - assert (Hnn : (found l <? 0) = false).
    { destruct Hbest as (Hf & _). apply Z.ltb_ge. lia. }
    rewrite Hnn, seq_of_copy by assumption. cbn -[Z.add].
    rewrite Z.gtb_ltb.
    destruct (Z.ltb_spec (super_hdr_seq F d0) (super_hdr_seq F data)) as [Hlt|Hge];
      cbn -[Z.add].
    + do 3 eexists. split; [reflexivity|]. split; [|split; [|split]];
        [|split; trace_eq|exact Hts|exact Hlog].
      right. exists data. split; [|reflexivity].
      eapply best_below_replace; eassumption.
    + do 3 eexists. split; [reflexivity|]. split; [|split; [|split]];
        [|split; trace_eq|exact Hts|exact Hlog].
      right. exists d0. split; [|reflexivity].
      eapply best_below_keep; eassumption.
Qed.

Lemma slot_read_logged_app k ts1 ts2 :
  slot_read_logged K F k ts1 \/ slot_read_logged K F k ts2 ->
  slot_read_logged K F k (ts1 ++ ts2).
Proof.
  unfold slot_read_logged.
  destruct (disk K (SCOUTFS_SUPER_BRICK F + k));
    intros [H|H]; try destruct H; try split; apply in_or_app; auto.
Qed.

(** The scan of [n] slots from slot [i] on. *)
Lemma scan_loop_inv s0 n :
  forall i l w,
    0 <= i ->
    scan_inv K F s0 i l w ->
    exists l' w' ts,
      for_loop n i (read_supers_body K F) l w = Some (l', w') /\
      scan_inv K F s0 (i + Z.of_nat n) l' w' /\
      grows_by w w' ts /\
      forallb scan_event ts = true /\
      (forall k, i <= k < i + Z.of_nat n -> slot_read_logged K F k ts).
Proof.
  induction n as [|n IH]; intros i l w Hi Hinv.
  - exists l, w, []. cbn -[Z.add]. rewrite Z.add_0_r.
    repeat split; try assumption; try lia.
    now rewrite app_nil_r.
  - destruct (read_supers_body_inv s0 i l w Hi Hinv)
      as (l1 & w1 & ts1 & E1 & I1 & [Hb1 Ht1] & Hs1 & Hl1).
    destruct (IH (i + 1) l1 w1)
      as (l2 & w2 & ts2 & E2 & I2 & [Hb2 Ht2] & Hs2 & Hl2); [lia|assumption|].
    exists l2, w2, (ts1 ++ ts2). split; [|split; [|split; [|split]]].
    + change (for_loop (S n) i (read_supers_body K F) l w)
        with (bind (read_supers_body K F i l)
                   (fun s' => for_loop n (i + 1) (read_supers_body K F) s') w).
      unfold bind. now rewrite E1.
    + replace (i + Z.of_nat (S n)) with (i + 1 + Z.of_nat n) by lia. assumption.
    + split; [congruence|]. now rewrite Ht2, Ht1, app_assoc.
    + now rewrite forallb_app, Hs1, Hs2.
    + intros k Hk. apply slot_read_logged_app.
      destruct (Z.eq_dec k i) as [->|Hne]; [now left|].
      right. apply Hl2. lia.
Qed.

Lemma set_nth_length {A} n (a : A) l : length (set_nth n a l) = length l.
Proof.
  revert n. induction l as [|h t IH]; intros [|n]; cbn; auto.
Qed.

(** Drawing the bloom keys returns and touches the keys only. *)
Lemma fill_bloom_loop n :
  forall i b s t,
    exists s' t',
      for_loop n i (fill_bloom_key K) tt
        {| sb := b; sbi_mem := Some s; trace := t |} =
        Some (tt, {| sb := b; sbi_mem := Some s'; trace := t ++ t' |}) /\
      forallb random_event t' = true /\
      super s' = super s /\ next_ino s' = next_ino s /\
      next_blkno s' = next_blkno s /\ item_root s' = item_root s /\
      dirty_item_root s' = dirty_item_root s /\
      length (bloom_hash_keys s') = length (bloom_hash_keys s).
Proof.
  induction n as [|n IH]; intros i b s t.
  - exists s, []. cbn. rewrite app_nil_r. repeat split; reflexivity.
  - cbn -[Z.add].
    match goal with
    | |- context [for_loop n (i + 1) _ tt
                    {| sb := b; sbi_mem := Some ?s1; trace := ?t1 |}] =>
        destruct (IH (i + 1) b s1 t1)
          as (s' & t' & E & Hsel & H1 & H2 & H3 & H4 & H5 & H6)
    end.
    exists s', (ev_get_random_bytes (Z.to_nat i) :: t').
    rewrite E. cbn in H1, H2, H3, H4, H5, H6.
    rewrite set_nth_length in H6.
    split; [now rewrite <- app_assoc|].
    repeat split; assumption.
Qed.

Lemma scan_inv_start s0 w :
  sbi_mem w = Some s0 ->
  scan_inv K F s0 0 {| bh := None; found := -1 |} w.
Proof.
  intros Hm. left. repeat split; try assumption.
  intros j d Hj. lia.
Qed.

(** [read_supers] on a live context [s0]: it returns, having read both
    slots; either no slot is valid, the result is [-EINVAL] and the context
    is untouched, or the result is 0, the context holds the best brick, and
    the slot of that brick is the one logged. *)
Lemma read_supers_spec w s0 :
  sbi_mem w = Some s0 ->
  exists r w' ts,
    read_supers K F w = Some (r, w') /\
    sb w' = sb w /\
    forallb scan_event ts = true /\
    (forall k, 0 <= k < 2 -> slot_read_logged K F k ts) /\
    ((r = - EINVAL /\ no_valid_below K F 2 /\ sbi_mem w' = Some s0 /\
      trace w' = trace w ++ ts ++ [ev_err_no_super]) \/
     (r = 0 /\
      exists f data s' tr,
        best_below K F 2 f data /\
        sbi_mem w' = Some s' /\
        selected F s0 s' data /\
        forallb random_event tr = true /\
        trace w' =
          trace w ++ ts ++ ev_info_using f (super_hdr_seq F data) :: tr)).
Proof.
  intros Hm.
  destruct (scan_loop_inv s0 2 0 _ w (Z.le_refl 0) (scan_inv_start s0 w Hm))
    as (l & w1 & ts & Eloop & Hinv & [Hb Ht] & Hs & Hlog).
  change (0 + Z.of_nat 2) with 2 in Hinv, Hlog.
  unfold read_supers, bind. rewrite Eloop.
  destruct w1 as [b1 m1 t1]. cbn in Hb, Ht. subst b1 t1.
  rewrite brelse_if_run.
  assert (Hs' : forallb scan_event (ts ++ release_events (bh l)) = true).
  { now rewrite forallb_app, Hs, release_events_scan. }
  assert (Hlog' : forall k, 0 <= k < 2 ->
            slot_read_logged K F k (ts ++ release_events (bh l))).
  { intros k Hk. apply slot_read_logged_app. left. auto. }
  destruct Hinv as [(Hf & Hm1 & Hnone)|(data & Hbest & Hm1)]; cbn in Hm1; subst m1.
  - rewrite Hf. cbn.
    do 2 eexists. exists (ts ++ release_events (bh l)).
    split; [reflexivity|]. split; [reflexivity|].
    split; [exact Hs'|]. split; [exact Hlog'|].
    left. cbn. repeat split; try assumption.
    now rewrite <- !app_assoc.
  - assert (Hnn : (found l <? 0) = false).
    { destruct Hbest as (Hf & _). apply Z.ltb_ge. lia. }
    rewrite Hnn. cbn -[Z.add].
    rewrite seq_of_copy by assumption.
    match goal with
    | |- context [for_loop _ 0 _ tt
                    {| sb := sb w; sbi_mem := Some ?s1; trace := ?t3 |}] =>
        destruct (fill_bloom_loop (nr_bloom_hash_keys F) 0 (sb w) s1 t3)
          as (s' & t' & E & Hsel & H1 & H2 & H3 & H4 & H5 & H6)
    end.
    rewrite E. cbn in H1, H2, H3, H4, H5, H6.
    do 2 eexists. exists (ts ++ release_events (bh l)).
    split; [reflexivity|]. split; [reflexivity|].
    split; [exact Hs'|]. split; [exact Hlog'|].
    right. split; [reflexivity|].
    exists (found l), data, s', t'. split; [assumption|]. split; [reflexivity|].
    split; [repeat split; assumption|]. split; [assumption|].
    cbn. now rewrite <- !app_assoc.
Qed.

End SelectionProofs.

(** ** Lemmas on scoutfs_fill_super and scoutfs_mount *)

Lemma PTR_ERR_range p :
  IS_ERR p = true -> - MAX_ERRNO <= PTR_ERR p < 0.
Proof.
  unfold IS_ERR, PTR_ERR, s64, u64, MAX_ERRNO. intros H.
  apply Z.leb_le in H.
  assert (Hlt : p mod 2 ^ 64 < 2 ^ 64) by (apply Z.mod_pos_bound; lia).
  cbv zeta.
  destruct (Z.ltb_spec (p mod 2 ^ 64) (2 ^ 63)); lia.
Qed.

Lemma fill_super_no_memory K F :
  kzalloc_ok K = false ->
  scoutfs_fill_super K F new_world =
  Some (- ENOMEM, {| sb := sb_after_alloc F false 0; sbi_mem := None;
                     trace := [ev_kzalloc false] |}).
Proof.
  intros Hk. unfold scoutfs_fill_super, bind, kzalloc. cbn.
  rewrite Hk. reflexivity.
Qed.

Lemma fill_super_bad_blocksize K F :
  kzalloc_ok K = true ->
  blocksize_supported K F = false ->
  scoutfs_fill_super K F new_world =
  Some (- EINVAL,
        {| sb := sb_after_alloc F true 0; sbi_mem := Some (zeroed_sbi F);
           trace := [ev_kzalloc true;
                     ev_sb_set_blocksize (SCOUTFS_BRICK_SIZE F) false;
                     ev_printk_blocksize] |}).
Proof.
  intros Hk Hb. unfold blocksize_supported in Hb.
  unfold scoutfs_fill_super, bind, kzalloc, sb_set_blocksize. cbn.
  rewrite Hk. cbn. rewrite Hb. reflexivity.
Qed.

(** With the context allocated and the block size set, the rest of
    [scoutfs_fill_super] from the result of [read_supers] on. *)
Lemma fill_super_selection K F r w2 :
  kzalloc_ok K = true ->
  blocksize_supported K F = true ->
  read_supers K F (world_at_selection F) = Some (r, w2) ->
  scoutfs_fill_super K F new_world =
  if negb (r =? 0) then Some (r, w2)
  else
    let inode := iget K (SCOUTFS_ROOT_INO F) in
    if IS_ERR inode then
      Some (PTR_ERR inode,
            {| sb := sb w2; sbi_mem := sbi_mem w2;
               trace := trace w2 ++
                        [ev_scoutfs_iget (SCOUTFS_ROOT_INO F) inode] |})
    else
      let root := make_root K inode in
      Some (if u64 root =? 0 then - ENOMEM else 0,
            {| sb := set_s_root (u64 root) (sb w2); sbi_mem := sbi_mem w2;
               trace := trace w2 ++
                        [ev_scoutfs_iget (SCOUTFS_ROOT_INO F) inode;
                         ev_d_make_root inode root] |}).
Proof.
  intros Hk Hb Hr. unfold blocksize_supported in Hb.
  unfold scoutfs_fill_super, bind, kzalloc, sb_set_blocksize. cbn.
  rewrite Hk. cbn. rewrite Hb. cbn.
  change (read_supers K F _) with (read_supers K F (world_at_selection F)).
  rewrite Hr.
  destruct (r =? 0); cbn; [|reflexivity].
  destruct (IS_ERR (iget K (SCOUTFS_ROOT_INO F))); cbn; [reflexivity|].
  rewrite <- app_assoc. cbn.
  destruct (u64 (make_root K (iget K (SCOUTFS_ROOT_INO F))) =? 0); reflexivity.
Qed.

(** [scoutfs_mount] after a [scoutfs_fill_super] that failed with the
    context allocated. *)
Lemma mount_unwinds K F e w1 s :
  scoutfs_fill_super K F new_world = Some (e, w1) ->
  e <> 0 ->
  s_fs_info (sb w1) = true ->
  sbi_mem w1 = Some s ->
  scoutfs_mount K F new_world =
  Some (ERR_PTR e,
        {| sb := sb w1; sbi_mem := None;
           trace := trace w1 ++ [ev_kill_block_super; ev_kfree true] |}).
Proof.
  intros Hf He Hp Hm.
  unfold scoutfs_mount, mount_bdev, bind. rewrite Hf.
  apply Z.eqb_neq in He. rewrite He. cbn.
  rewrite Hp, Hm. cbn. now rewrite <- app_assoc.
Qed.

(** ** The outcome of read_supers *)

Lemma read_supers_succeeds K F w s0 i good :
  layout_ok F ->
  sbi_mem w = Some s0 ->
  0 <= i < 2 ->
  slot_valid K F i good ->
  exists w' f data s' ts tr,
    read_supers K F w = Some (0, w') /\ chose K F w s0 w' f data s' ts tr.
Proof.
  intros HL Hm Hi Hv.
  destruct (read_supers_spec K F HL w s0 Hm)
    as (r & w' & ts & E & Hb & Hs & Hlog & [(_ & Hnone & _)|(-> & f & data & s' & tr & H)]).
  - exfalso. exact (Hnone i good Hi Hv).
  - exists w', f, data, s', ts, tr. split; [assumption|].
    unfold chose. tauto.
Qed.

Lemma read_supers_zero_inv K F w s0 w' :
  layout_ok F ->
  sbi_mem w = Some s0 ->
  read_supers K F w = Some (0, w') ->
  exists f data s' ts tr, chose K F w s0 w' f data s' ts tr.
Proof.
  intros HL Hm E.
  destruct (read_supers_spec K F HL w s0 Hm)
    as (r & w1 & ts & E1 & Hb & Hs & Hlog & [(Hr & _)|(Hr & f & data & s' & tr & H)]);
    rewrite E in E1; injection E1 as <- <-.
  - discriminate Hr.
  - exists f, data, s', ts, tr. unfold chose. tauto.
Qed.

Lemma read_supers_fails K F w s0 :
  layout_ok F ->
  sbi_mem w = Some s0 ->
  slot_faulty K F 0 ->
  slot_faulty K F 1 ->
  exists w' ts,
    read_supers K F w = Some (- EINVAL, w') /\
    sb w' = sb w /\ sbi_mem w' = Some s0 /\
    forallb scan_event ts = true /\
    trace w' = trace w ++ ts ++ [ev_err_no_super].
Proof.
  intros HL Hm H0 H1.
  destruct (read_supers_spec K F HL w s0 Hm)
    as (r & w' & ts & E & Hb & Hs & Hlog &
        [(-> & _ & Hm' & Ht)|(_ & f & data & s' & tr & (Hf & Hv & _) & _)]).
  - exists w', ts. auto.
  - exfalso. assert (f = 0 \/ f = 1) as [-> | ->] by lia.
    + apply (proj1 (slot_faulty_not_valid K F 0) H0 data Hv).
    + apply (proj1 (slot_faulty_not_valid K F 1) H1 data Hv).
Qed.

(** With both slots valid the best is slot 1 exactly when its sequence is
    strictly greater. *)
Lemma best_of_two K F f data d0 d1 :
  best_below K F 2 f data ->
  slot_valid K F 0 d0 ->
  slot_valid K F 1 d1 ->
  (f, data) =
  if super_hdr_seq F d0 <? super_hdr_seq F d1 then (1, d1) else (0, d0).
Proof.
  intros (Hf & Hv & Hall) H0 H1.
  destruct (Hall 0 d0) as [Hle0 Heq0]; [lia|assumption|].
  destruct (Hall 1 d1) as [Hle1 Heq1]; [lia|assumption|].
  assert (f = 0 \/ f = 1) as [-> | ->] by lia.
  - rewrite (slot_valid_fun K F 0 _ _ Hv H0) in *.
    destruct (Z.ltb_spec (super_hdr_seq F d0) (super_hdr_seq F d1)); [lia|reflexivity].
  - rewrite (slot_valid_fun K F 1 _ _ Hv H1) in *.
    destruct (Z.ltb_spec (super_hdr_seq F d0) (super_hdr_seq F d1)); [reflexivity|lia].
Qed.

(** With one slot valid and the other not, the best is the valid one. *)
Lemma best_is_the_valid_one K F f data i j good :
  best_below K F 2 f data ->
  0 <= i < 2 -> 0 <= j < 2 ->
  (forall d, ~ slot_valid K F i d) ->
  slot_valid K F j good ->
  f = j /\ data = good.
Proof.
  intros (Hf & Hv & _) Hi Hj Hbad Hgood.
  assert (f = j).
  { destruct (Z.eq_dec f i) as [->|Hfi]; [exfalso; exact (Hbad data Hv)|].
    destruct (Z.eq_dec j i) as [->|Hji]; [exfalso; exact (Hbad good Hgood)|].
    lia. }
  subst f. split; [reflexivity|].
  exact (slot_valid_fun K F j _ _ Hv Hgood).
Qed.

(** ** Facts about the example bricks *)

Lemma example_layout_ok : layout_ok example_format.
Proof.
  unfold layout_ok. cbn. lia.
Qed.

(** A [scoutfs_fill_super] that returned 0 went through a successful
    [read_supers], a [scoutfs_iget] of the root inode that returned no
    error, and a [d_make_root] that returned a dentry. *)
Lemma fill_super_zero_inv K F w' :
  layout_ok F ->
  scoutfs_fill_super K F new_world = Some (0, w') ->
  exists w2 f data s' ts tr,
    read_supers K F (world_at_selection F) = Some (0, w2) /\
    chose K F (world_at_selection F) (zeroed_sbi F) w2 f data s' ts tr /\
    sbi_mem w' = Some s' /\
    IS_ERR (iget K (SCOUTFS_ROOT_INO F)) = false /\
    trace w' =
      trace w2 ++
      [ev_scoutfs_iget (SCOUTFS_ROOT_INO F) (iget K (SCOUTFS_ROOT_INO F));
       ev_d_make_root (iget K (SCOUTFS_ROOT_INO F))
                      (make_root K (iget K (SCOUTFS_ROOT_INO F)))] /\
    s_root (sb w') = u64 (make_root K (iget K (SCOUTFS_ROOT_INO F))) /\
    s_root (sb w') <> 0.
Proof.
  intros HL H.
  assert (Hnomem : - ENOMEM <> 0) by (unfold ENOMEM; lia).
  assert (Hinval : - EINVAL <> 0) by (unfold EINVAL; lia).
  destruct (kzalloc_ok K) eqn:Hk.
  2:{ rewrite (fill_super_no_memory K F Hk) in H. congruence. }
  destruct (blocksize_supported K F) eqn:Hb.
  2:{ rewrite (fill_super_bad_blocksize K F Hk Hb) in H. congruence. }
  destruct (read_supers_spec K F HL (world_at_selection F) (zeroed_sbi F) eq_refl)
    as (r & w2 & ts & E & Hsb & Hs & Hlog &
        [(-> & _)|(-> & f & data & s' & tr & Hbest & Hm & Hsel & Hr & Ht)]);
    rewrite (fill_super_selection K F _ w2 Hk Hb E) in H.
  - cbn in H. congruence.
  - cbn [Z.eqb negb] in H. cbv zeta in H.
    destruct (IS_ERR (iget K (SCOUTFS_ROOT_INO F))) eqn:Herr.
    + pose proof (PTR_ERR_range _ Herr). injection H as H _. lia.
    + destruct (u64 (make_root K (iget K (SCOUTFS_ROOT_INO F))) =? 0) eqn:Hroot;
        [congruence|].
      injection H as <-. apply Z.eqb_neq in Hroot.
      exists w2, f, data, s', ts, tr. unfold chose. cbn. tauto.
Qed.

(** ** The claims *)

(** C1: when both slots hold a valid record, [read_supers] succeeds and
    keeps the record with the strictly greatest [hdr.seq]; when the two
    sequences are equal it keeps the record of slot 0, the first scanned: a
    later record with an equal sequence does not replace the best.  The
    record kept is the best in the sense of [best_below], the statement for
    any number of scanned slots, and its slot is the one reported. *)
Theorem read_supers_selects_greatest_sequence K F w s0 d0 d1 :
  layout_ok F ->
  sbi_mem w = Some s0 ->
  slot_valid K F 0 d0 ->
  slot_valid K F 1 d1 ->
  exists w' s' ts tr,
    read_supers K F w = Some (0, w') /\
    let later := super_hdr_seq F d0 <? super_hdr_seq F d1 in
    let f := if later then 1 else 0 in
    let data := if later then d1 else d0 in
    chose K F w s0 w' f data s' ts tr /\
    super s' = firstn (sizeof_scoutfs_super F) data.
Proof.
  intros HL Hm H0 H1.
  destruct (read_supers_succeeds K F w s0 0 d0 HL Hm ltac:(lia) H0)
    as (w' & f & data & s' & ts & tr & E & Hc).
  exists w', s', ts, tr. split; [assumption|]. cbv zeta.
  pose proof Hc as (_ & _ & Hsel & Hbest & _).
  pose proof (best_of_two K F f data d0 d1 Hbest H0 H1) as Hfd.
  destruct (super_hdr_seq F d0 <? super_hdr_seq F d1);
    injection Hfd as -> ->; (split; [assumption|apply Hsel]).
Qed.

(** Slots holding sequences 3 and 9, both valid: slot 1 is chosen. *)
Lemma read_supers_selects_greatest_sequence_witness :
  let K := example_kernel (Some (example_brick 3 x00))
                          (Some (example_brick 9 x01)) in
  let w := world_at_selection example_format in
  exists w' s' ts tr,
    read_supers K example_format w = Some (0, w') /\
    chose K example_format w (zeroed_sbi example_format) w' 1
          (example_brick 9 x01) s' ts tr /\
    super s' = firstn 96 (example_brick 9 x01).
Proof.
  intros K w.
  apply (read_supers_selects_greatest_sequence K example_format w
           (zeroed_sbi example_format)
           (example_brick 3 x00) (example_brick 9 x01)).
  - unfold layout_ok. cbn. lia.
  - reflexivity.
  - split; [reflexivity|vm_compute; reflexivity].
  - split; [reflexivity|vm_compute; reflexivity].
Defined.

(** C2: a brick that fails the id test or the crc test is never the one
    [read_supers] keeps, whatever its [hdr.seq]: with one slot holding such
    a brick and the other a valid one, the valid one is kept and reported.
    Nothing is assumed of the two sequences. *)
Theorem invalid_record_never_selected K F w s0 i j bad good :
  layout_ok F ->
  sbi_mem w = Some s0 ->
  0 <= i < 2 ->
  0 <= j < 2 ->
  disk K (SCOUTFS_SUPER_BRICK F + i) = Some bad ->
  valid_super F bad = false ->
  slot_valid K F j good ->
  exists w' s' ts tr,
    read_supers K F w = Some (0, w') /\
    chose K F w s0 w' j good s' ts tr /\
    super s' = firstn (sizeof_scoutfs_super F) good.
Proof.
  intros HL Hm Hi Hj Hd Hbad Hgood.
  destruct (read_supers_succeeds K F w s0 j good HL Hm Hj Hgood)
    as (w' & f & data & s' & ts & tr & E & Hc).
  exists w', s', ts, tr. split; [assumption|].
  pose proof Hc as (_ & _ & Hsel & Hbest & _).
  destruct (best_is_the_valid_one K F f data i j good Hbest Hi Hj) as [-> ->].
  - intros d [Hd' Hv]. congruence.
  - assumption.
  - split; [assumption|apply Hsel].
Qed.

(** Slot 0 valid with sequence 5, slot 1 with sequence 7 and a bad crc:
    slot 0 is chosen. *)
Lemma invalid_record_never_selected_witness :
  let K := example_kernel (Some (example_brick 5 x00))
                          (Some (example_brick_bad_crc 7 x01)) in
  let w := world_at_selection example_format in
  exists w' s' ts tr,
    read_supers K example_format w = Some (0, w') /\
    chose K example_format w (zeroed_sbi example_format) w' 0
          (example_brick 5 x00) s' ts tr /\
    super s' = firstn 96 (example_brick 5 x00).
Proof.
  intros K w.
  apply (invalid_record_never_selected K example_format w
           (zeroed_sbi example_format) 1 0
           (example_brick_bad_crc 7 x01) (example_brick 5 x00)).
  - unfold layout_ok. cbn. lia.
  - reflexivity.
  - lia.
  - lia.
  - reflexivity.
  - vm_compute. reflexivity.
  - split; [reflexivity|vm_compute; reflexivity].
Defined.

Lemma scan_events_no_root_calls ts :
  forallb scan_event ts = true -> no_root_calls ts.
Proof.
  intros H e He. rewrite forallb_forall in H. specialize (H e He).
  destruct e; (exact I || discriminate H).
Qed.

Lemma no_root_calls_app t1 t2 :
  no_root_calls t1 -> no_root_calls t2 -> no_root_calls (t1 ++ t2).
Proof.
  intros H1 H2 e He. apply in_app_or in He.
  destruct He as [He|He]; [exact (H1 e He)|exact (H2 e He)].
Qed.

(** C3: when neither slot yields a valid record (each fails to read, or has
    a wrong id, or a crc that does not match), [read_supers] returns
    [-EINVAL] after logging that no valid super brick could be read, and
    the mount stops there: [scoutfs_fill_super] returns that error, and so
    does [scoutfs_mount], without any call of [scoutfs_iget] or
    [d_make_root], and [s_root] stays NULL. *)
Theorem no_valid_super_aborts_mount K F :
  layout_ok F ->
  kzalloc_ok K = true ->
  blocksize_supported K F = true ->
  slot_faulty K F 0 ->
  slot_faulty K F 1 ->
  exists w2 w3 ts,
    read_supers K F (world_at_selection F) = Some (- EINVAL, w2) /\
    forallb scan_event ts = true /\
    trace w2 = trace (world_at_selection F) ++ ts ++ [ev_err_no_super] /\
    scoutfs_fill_super K F new_world = Some (- EINVAL, w2) /\
    scoutfs_mount K F new_world = Some (ERR_PTR (- EINVAL), w3) /\
    no_root_calls (trace w2) /\
    no_root_calls (trace w3) /\
    s_root (sb w3) = 0.
Proof.
  intros HL Hk Hb H0 H1.
  destruct (read_supers_fails K F (world_at_selection F) (zeroed_sbi F)
              HL eq_refl H0 H1)
    as (w2 & ts & E & Hsb & Hm & Hs & Ht).
  assert (Hfill : scoutfs_fill_super K F new_world = Some (- EINVAL, w2)).
  { rewrite (fill_super_selection K F _ _ Hk Hb E). reflexivity. }
  assert (Hno : no_root_calls (trace w2)).
  { rewrite Ht. apply no_root_calls_app.
    - intros e [<-|[<-|[]]]; exact I.
    - apply no_root_calls_app; [now apply scan_events_no_root_calls|].
      intros e [<-|[]]; exact I. }
  exists w2,
    {| sb := sb w2; sbi_mem := None;
       trace := trace w2 ++ [ev_kill_block_super; ev_kfree true] |}, ts.
  repeat split; try assumption.
  - apply (mount_unwinds K F _ w2 (zeroed_sbi F) Hfill); [discriminate| |assumption].
    now rewrite Hsb.
  - cbn. apply no_root_calls_app; [assumption|].
    intros e [<-|[<-|[]]]; exact I.
  - cbn. now rewrite Hsb.
Qed.

(** Both slots with a wrong id. *)
Lemma no_valid_super_aborts_mount_witness :
  let K := example_kernel (Some (example_brick_bad_id 5 x00))
                          (Some (example_brick_bad_id 7 x01)) in
  let F := example_format in
  exists w2 w3 ts,
    read_supers K F (world_at_selection F) = Some (- EINVAL, w2) /\
    forallb scan_event ts = true /\
    trace w2 = trace (world_at_selection F) ++ ts ++ [ev_err_no_super] /\
    scoutfs_fill_super K F new_world = Some (- EINVAL, w2) /\
    scoutfs_mount K F new_world = Some (ERR_PTR (- EINVAL), w3) /\
    no_root_calls (trace w2) /\
    no_root_calls (trace w3) /\
    s_root (sb w3) = 0.
Proof.
  intros K F.
  apply (no_valid_super_aborts_mount K F).
  - unfold layout_ok. cbn. lia.
  - reflexivity.
  - reflexivity.
  - vm_compute. reflexivity.
  - vm_compute. reflexivity.
Defined.

(** C4: a slot whose read fails does not end the scan: the failure is
    warned about, the other slot is read, and when that one is valid
    [read_supers] returns 0 with its record. *)
Theorem read_failure_is_not_fatal K F w s0 i j good :
  layout_ok F ->
  sbi_mem w = Some s0 ->
  0 <= i < 2 ->
  0 <= j < 2 ->
  disk K (SCOUTFS_SUPER_BRICK F + i) = None ->
  slot_valid K F j good ->
  exists w' s' ts tr,
    read_supers K F w = Some (0, w') /\
    chose K F w s0 w' j good s' ts tr /\
    super s' = firstn (sizeof_scoutfs_super F) good /\
    In (ev_sb_bread (SCOUTFS_SUPER_BRICK F + i) false) ts /\
    In (ev_warn i couldnt_read) ts /\
    In (ev_sb_bread (SCOUTFS_SUPER_BRICK F + j) true) ts.
Proof.
  intros HL Hm Hi Hj Hd Hgood.
  destruct (read_supers_succeeds K F w s0 j good HL Hm Hj Hgood)
    as (w' & f & data & s' & ts & tr & E & Hc).
  exists w', s', ts, tr. split; [assumption|].
  pose proof Hc as (_ & _ & Hsel & Hbest & _ & _ & Hlog & _).
  destruct (best_is_the_valid_one K F f data i j good Hbest Hi Hj) as [-> ->].
  - intros d [Hd' Hv]. congruence.
  - assumption.
  - split; [assumption|]. split; [apply Hsel|].
    pose proof (Hlog i Hi) as Hli. pose proof (Hlog j Hj) as Hlj.
    unfold slot_read_logged in Hli, Hlj.
    rewrite Hd in Hli. destruct Hgood as [Hdj _]. rewrite Hdj in Hlj.
    tauto.
Qed.

(** Slot 0 does not read, slot 1 is valid with sequence 1. *)
Lemma read_failure_is_not_fatal_witness :
  let K := example_kernel None (Some (example_brick 1 x00)) in
  let F := example_format in
  let w := world_at_selection F in
  exists w' s' ts tr,
    read_supers K F w = Some (0, w') /\
    chose K F w (zeroed_sbi F) w' 1 (example_brick 1 x00) s' ts tr /\
    super s' = firstn 96 (example_brick 1 x00) /\
    In (ev_sb_bread 16 false) ts /\
    In (ev_warn 0 couldnt_read) ts /\
    In (ev_sb_bread 17 true) ts.
Proof.
  intros K F w.
  apply (read_failure_is_not_fatal K F w (zeroed_sbi F) 0 1
           (example_brick 1 x00)).
  - unfold layout_ok. cbn. lia.
  - reflexivity.
  - lia.
  - lia.
  - reflexivity.
  - split; [reflexivity|vm_compute; reflexivity].
Defined.

Lemma crc_region_all_but_crc F data :
  crc_call_in_bounds F data ->
  crc_region F data = all_but_crc F data.
Proof.
  intros (Hlen & H4 & Hin).
  assert (Hoff : offsetof_hdr_crc F = 0%nat) by lia.
  unfold crc_region, all_but_crc, bytes_at. rewrite Hoff.
  cbn [firstn app Nat.add].
  apply firstn_all2. rewrite length_skipn. lia.
Qed.

(** C5: for a brick whose id matches, [read_supers] calls [crc32c] with
    the seed [0xFFFFFFFF] on every byte of the brick except those of
    [hdr.crc], and goes on to the sequence comparison exactly when the
    result equals the stored [hdr.crc]: a brick whose crc differs is warned
    about and changes neither [found] nor the context. *)
Theorem crc_validation K F i l w s data :
  crc_call_in_bounds F data ->
  sbi_mem w = Some s ->
  disk K (SCOUTFS_SUPER_BRICK F + i) = Some data ->
  super_id F data = u64 (SCOUTFS_SUPER_ID F) ->
  let crc := crc32c 0xFFFFFFFF (all_but_crc F data) in
  let held := Some (SCOUTFS_SUPER_BRICK F + i) in
  let t := trace w ++ release_events (bh l) ++
           [ev_sb_bread (SCOUTFS_SUPER_BRICK F + i) true] in
  computed_crc F data = crc /\
  (valid_super F data = true <-> crc = super_hdr_crc F data) /\
  (crc <> super_hdr_crc F data ->
   read_supers_body K F i l w =
   Some ({| bh := held; found := found l |},
         {| sb := sb w; sbi_mem := sbi_mem w;
            trace := t ++ [ev_warn i (bad_crc crc (super_hdr_crc F data))] |})) /\
  (crc = super_hdr_crc F data ->
   read_supers_body K F i l w =
   Some (if (found l <? 0) ||
            (super_hdr_seq F data >? super_hdr_seq F (super s))
         then ({| bh := held; found := i |},
               {| sb := sb w; sbi_mem := Some (memcpy_super F s data);
                  trace := t |})
         else ({| bh := held; found := found l |},
               {| sb := sb w; sbi_mem := sbi_mem w; trace := t |}))).
Proof.
  intros Hin Hm Hdisk Hid crc held t.
  assert (Hcrc : computed_crc F data = crc).
  { unfold computed_crc. now rewrite crc_region_all_but_crc. }
  assert (Hbody :
            read_supers_body K F i l w =
            if negb (crc =? super_hdr_crc F data) then
              Some ({| bh := held; found := found l |},
                    {| sb := sb w; sbi_mem := sbi_mem w;
                       trace := t ++ [ev_warn i (bad_crc crc (super_hdr_crc F data))] |})
            else
              Some (if (found l <? 0) ||
                       (super_hdr_seq F data >? super_hdr_seq F (super s))
                    then ({| bh := held; found := i |},
                          {| sb := sb w; sbi_mem := Some (memcpy_super F s data);
                             trace := t |})
                    else ({| bh := held; found := found l |},
                          {| sb := sb w; sbi_mem := sbi_mem w; trace := t |}))).
  { destruct w as [b m tr]. cbn in Hm. subst m. subst t held.
    unfold read_supers_body, bind, sb_bread.
    rewrite brelse_if_run, Hdisk. cbn -[Z.add].
    rewrite Hid, Z.eqb_refl, Hcrc. cbn -[Z.add].
    destruct (crc =? super_hdr_crc F data); cbn -[Z.add].
    - destruct ((found l <? 0) ||
                (super_hdr_seq F data >? super_hdr_seq F (super s)));
        cbn -[Z.add]; now rewrite <- ?app_assoc.
    - now rewrite <- ?app_assoc. }
  split; [assumption|]. split; [|split].
  - unfold valid_super. rewrite Hid, Z.eqb_refl, Hcrc. cbn.
    apply Z.eqb_eq.
  - intros Hne. rewrite Hbody.
    apply Z.eqb_neq in Hne. now rewrite Hne.
  - intros Heq. rewrite Hbody.
    apply Z.eqb_eq in Heq. now rewrite Heq.
Qed.

(** A committed brick in slot 0, nothing found yet. *)
Lemma crc_validation_witness :
  let K := example_kernel (Some (example_brick 5 x00)) None in
  let F := example_format in
  let data := example_brick 5 x00 in
  let crc := crc32c 0xFFFFFFFF (all_but_crc F data) in
  computed_crc F data = crc /\
  (valid_super F data = true <-> crc = super_hdr_crc F data) /\
  (crc <> super_hdr_crc F data ->
   read_supers_body K F 0 {| bh := None; found := -1 |} (world_at_selection F) =
   Some ({| bh := Some 16; found := -1 |},
         {| sb := sb (world_at_selection F);
            sbi_mem := Some (zeroed_sbi F);
            trace := (trace (world_at_selection F) ++ [] ++ [ev_sb_bread 16 true]) ++
                     [ev_warn 0 (bad_crc crc (super_hdr_crc F data))] |})) /\
  (crc = super_hdr_crc F data ->
   read_supers_body K F 0 {| bh := None; found := -1 |} (world_at_selection F) =
   Some ({| bh := Some 16; found := 0 |},
         {| sb := sb (world_at_selection F);
            sbi_mem := Some (memcpy_super F (zeroed_sbi F) data);
            trace := trace (world_at_selection F) ++ [] ++ [ev_sb_bread 16 true] |})).
Proof.
  intros K F data crc.
  apply (crc_validation K F 0 {| bh := None; found := -1 |}
           (world_at_selection F) (zeroed_sbi F) data).
  - assert (Hlen : length data = 4096%nat) by (vm_compute; reflexivity).
    unfold crc_call_in_bounds. rewrite Hlen. cbn. lia.
  - reflexivity.
  - reflexivity.
  - vm_compute. reflexivity.
Defined.

(** Whatever the kernel answers, [scoutfs_fill_super] returns, and its
    first two calls are the allocation and then the block size. *)
Lemma fill_super_first_calls K F :
  layout_ok F ->
  kzalloc_ok K = true ->
  blocksize_supported K F = true ->
  exists r w' rest,
    scoutfs_fill_super K F new_world = Some (r, w') /\
    trace w' = ev_kzalloc true ::
               ev_sb_set_blocksize (SCOUTFS_BRICK_SIZE F) true :: rest.
Proof.
  intros HL Hk Hb.
  destruct (read_supers_spec K F HL (world_at_selection F) (zeroed_sbi F) eq_refl)
    as (r & w2 & ts & E & _ & _ & _ & Hcases).
  assert (Ht : exists rest, trace w2 =
            ev_kzalloc true ::
            ev_sb_set_blocksize (SCOUTFS_BRICK_SIZE F) true :: rest).
  { destruct Hcases as [(_ & _ & _ & Ht)|(_ & f & data & s' & tr & _ & _ & _ & _ & Ht)];
      rewrite Ht; cbn; eexists; reflexivity. }
  destruct Ht as (rest & Ht).
  rewrite (fill_super_selection K F r w2 Hk Hb E).
  destruct (negb (r =? 0)); [now exists r, w2, rest|].
  cbv zeta. destruct (IS_ERR (iget K (SCOUTFS_ROOT_INO F)));
    do 3 eexists; (split; [reflexivity|]); cbn; rewrite Ht; cbn; reflexivity.
Qed.

(** C6, as the code has it: the context is allocated first and the block
    size is set second.  [scoutfs_fill_super] always returns; its first
    call is [kzalloc]; when that fails the result is [-ENOMEM] and the block
    size is never set; when it succeeds the next call is
    [sb_set_blocksize(sb, SCOUTFS_BRICK_SIZE)], and when that fails the
    result is [-EINVAL] with the context allocated and still in place. *)
Theorem context_allocated_before_blocksize K F :
  layout_ok F ->
  exists r w' ok rest,
    scoutfs_fill_super K F new_world = Some (r, w') /\
    trace w' = ev_kzalloc ok :: rest /\
    (ok = false -> r = - ENOMEM /\ rest = [] /\ sbi_mem w' = None) /\
    (ok = true ->
     exists ok' rest',
       rest = ev_sb_set_blocksize (SCOUTFS_BRICK_SIZE F) ok' :: rest' /\
       (ok' = false ->
        r = - EINVAL /\ rest' = [ev_printk_blocksize] /\
        sbi_mem w' = Some (zeroed_sbi F))).
Proof.
  intros HL.
  destruct (kzalloc_ok K) eqn:Hk.
  - destruct (blocksize_supported K F) eqn:Hb.
    + destruct (fill_super_first_calls K F HL Hk Hb) as (r & w' & rest & E & Ht).
      exists r, w', true, (ev_sb_set_blocksize (SCOUTFS_BRICK_SIZE F) true :: rest).
      split; [assumption|]. split; [assumption|]. split; [discriminate|].
      intros _. exists true, rest. split; [reflexivity|discriminate].
    + rewrite (fill_super_bad_blocksize K F Hk Hb).
      do 2 eexists. exists true. eexists. split; [reflexivity|].
      split; [reflexivity|]. split; [discriminate|].
      intros _. exists false. eexists. split; [reflexivity|].
      intros _. repeat split.
  - rewrite (fill_super_no_memory K F Hk).
    do 2 eexists. exists false. eexists. split; [reflexivity|].
    split; [reflexivity|]. split; [|discriminate].
    intros _. repeat split.
Qed.

(** The kernel that cannot set the block size: the context is allocated
    all the same. *)
Lemma context_allocated_before_blocksize_witness :
  exists r w' ok rest,
    scoutfs_fill_super example_kernel_no_blocksize example_format new_world =
      Some (r, w') /\
    trace w' = ev_kzalloc ok :: rest /\
    (ok = false -> r = - ENOMEM /\ rest = [] /\ sbi_mem w' = None) /\
    (ok = true ->
     exists ok' rest',
       rest = ev_sb_set_blocksize 4096 ok' :: rest' /\
       (ok' = false ->
        r = - EINVAL /\ rest' = [ev_printk_blocksize] /\
        sbi_mem w' = Some (zeroed_sbi example_format))).
Proof.
  apply (context_allocated_before_blocksize
           example_kernel_no_blocksize example_format).
  unfold layout_ok. cbn. lia.
Defined.

(** C6 as claimed does not hold: with a kernel that cannot set the block
    size the mount fails with [-EINVAL] after the context was allocated; no
    block size was set before the allocation. *)
Lemma blocksize_before_alloc_counterexample :
  scoutfs_fill_super example_kernel_no_blocksize example_format new_world =
    Some (- EINVAL,
          {| sb := sb_after_alloc example_format true 0;
             sbi_mem := Some (zeroed_sbi example_format);
             trace := [ev_kzalloc true; ev_sb_set_blocksize 4096 false;
                       ev_printk_blocksize] |}) /\
  ~ blocksize_before_alloc example_format
      [ev_kzalloc true; ev_sb_set_blocksize 4096 false; ev_printk_blocksize].
Proof.
  split; [reflexivity|].
  intros H.
  exact (H [] true [ev_sb_set_blocksize 4096 false; ev_printk_blocksize] eq_refl).
Qed.

(** C7: when the context has been initialised by a successful
    [read_supers] and then [scoutfs_iget] of the root inode returns an
    error, or [d_make_root] returns NULL, [scoutfs_fill_super] returns the
    error with the context in place, and [scoutfs_mount] frees it, through
    [scoutfs_kill_sb], before it returns that error. *)
Theorem mount_failure_releases_context K F i good :
  layout_ok F ->
  kzalloc_ok K = true ->
  blocksize_supported K F = true ->
  0 <= i < 2 ->
  slot_valid K F i good ->
  IS_ERR (iget K (SCOUTFS_ROOT_INO F)) = true \/
  u64 (make_root K (iget K (SCOUTFS_ROOT_INO F))) = 0 ->
  exists e w1 s w',
    scoutfs_fill_super K F new_world = Some (e, w1) /\
    e = (if IS_ERR (iget K (SCOUTFS_ROOT_INO F))
         then PTR_ERR (iget K (SCOUTFS_ROOT_INO F)) else - ENOMEM) /\
    e <> 0 /\
    sbi_mem w1 = Some s /\
    (exists data, selected F (zeroed_sbi F) s data) /\
    scoutfs_mount K F new_world = Some (ERR_PTR e, w') /\
    sbi_mem w' = None /\
    trace w' = trace w1 ++ [ev_kill_block_super; ev_kfree true].
Proof.
  intros HL Hk Hb Hi Hv Hfail.
  destruct (read_supers_succeeds K F (world_at_selection F) (zeroed_sbi F)
              i good HL eq_refl Hi Hv)
    as (w2 & f & data & s' & ts & tr & E & Hsb & Hm & Hsel & _).
  pose proof (fill_super_selection K F 0 w2 Hk Hb E) as Hfill.
  cbn [Z.eqb negb] in Hfill. cbv zeta in Hfill.
  destruct (IS_ERR (iget K (SCOUTFS_ROOT_INO F))) eqn:Herr.
  - pose proof (PTR_ERR_range _ Herr) as Hrange.
    do 2 eexists. exists s'. eexists.
    split; [exact Hfill|]. split; [reflexivity|]. split; [lia|].
    split; [assumption|]. split; [now exists data|].
    split.
    { apply (mount_unwinds K F _ _ s' Hfill); [lia| |assumption].
      cbn. now rewrite Hsb. }
    split; reflexivity.
  - destruct Hfail as [Hfail|Hroot]; [discriminate|].
    rewrite Hroot in Hfill. cbn [Z.eqb] in Hfill.
    do 2 eexists. exists s'. eexists.
    split; [exact Hfill|]. split; [reflexivity|].
    split; [unfold ENOMEM; lia|].
    split; [assumption|]. split; [now exists data|].
    split.
    { apply (mount_unwinds K F _ _ s' Hfill); [unfold ENOMEM; lia| |assumption].
      cbn. now rewrite Hsb. }
    split; reflexivity.
Qed.

Lemma mount_failure_releases_context_witness :
  let K := example_kernel_no_root in
  let F := example_format in
  exists e w1 s w',
    scoutfs_fill_super K F new_world = Some (e, w1) /\
    e = (if IS_ERR (iget K (SCOUTFS_ROOT_INO F))
         then PTR_ERR (iget K (SCOUTFS_ROOT_INO F)) else - ENOMEM) /\
    e <> 0 /\
    sbi_mem w1 = Some s /\
    (exists data, selected F (zeroed_sbi F) s data) /\
    scoutfs_mount K F new_world = Some (ERR_PTR e, w') /\
    sbi_mem w' = None /\
    trace w' = trace w1 ++ [ev_kill_block_super; ev_kfree true].
Proof.
  intros K F.
  apply (mount_failure_releases_context K F 0 (example_brick 5 x00)).
  - unfold layout_ok. cbn. lia.
  - reflexivity.
  - reflexivity.
  - lia.
  - split; [reflexivity|vm_compute; reflexivity].
  - left. vm_compute. reflexivity.
Defined.

(** C8: after every [scoutfs_fill_super] that returns 0 the counters are
    [SCOUTFS_ROOT_INO + 1] and 2, whatever brick was selected: two
    successful mounts over any two kernels, and so over any two disks,
    start with the same counters. *)
Theorem counters_seeded_from_constants K1 K2 F w1 w2 :
  layout_ok F ->
  scoutfs_fill_super K1 F new_world = Some (0, w1) ->
  scoutfs_fill_super K2 F new_world = Some (0, w2) ->
  exists s1 s2,
    sbi_mem w1 = Some s1 /\ sbi_mem w2 = Some s2 /\
    next_ino s1 = s64 (SCOUTFS_ROOT_INO F + 1) /\
    next_blkno s1 = 2 /\
    next_ino s2 = next_ino s1 /\
    next_blkno s2 = next_blkno s1.
Proof.
  intros HL H1 H2.
  destruct (fill_super_zero_inv K1 F w1 HL H1)
    as (_ & _ & _ & s1 & _ & _ & _ & (_ & _ & (_ & Hi1 & Hb1 & _) & _) & Hm1 & _).
  destruct (fill_super_zero_inv K2 F w2 HL H2)
    as (_ & _ & _ & s2 & _ & _ & _ & (_ & _ & (_ & Hi2 & Hb2 & _) & _) & Hm2 & _).
  exists s1, s2. repeat split; try assumption; congruence.
Qed.

(** Two disks whose selected bricks differ in sequence and in every
    payload byte. *)
Lemma counters_seeded_from_constants_witness :
  let K1 := example_kernel (Some (example_brick 5 x00)) None in
  let K2 := example_kernel (Some (example_brick 3 x11))
                           (Some (example_brick 9 xff)) in
  let F := example_format in
  exists s1 s2,
    sbi_mem (world_of (scoutfs_fill_super K1 F) new_world) = Some s1 /\
    sbi_mem (world_of (scoutfs_fill_super K2 F) new_world) = Some s2 /\
    next_ino s1 = s64 (1 + 1) /\
    next_blkno s1 = 2 /\
    next_ino s2 = next_ino s1 /\
    next_blkno s2 = next_blkno s1.
Proof.
  intros K1 K2 F.
  apply (counters_seeded_from_constants K1 K2 F
           (world_of (scoutfs_fill_super K1 F) new_world)
           (world_of (scoutfs_fill_super K2 F) new_world)).
  - unfold layout_ok. cbn. lia.
  - vm_compute. reflexivity.
  - vm_compute. reflexivity.
Defined.

(** C9: after a [read_supers] that returned 0 the [super] of the context
    is the leading [sizeof(struct scoutfs_super)] bytes of the brick read
    from the slot that is reported as used, byte for byte: every field of
    the struct reads the same in the context as in the brick.  The report is
    the only one among the calls made. *)
Theorem stored_super_is_copy_of_winner K F w s0 w' :
  layout_ok F ->
  sbi_mem w = Some s0 ->
  read_supers K F w = Some (0, w') ->
  exists f data s' ts tr,
    trace w' = trace w ++ ts ++ ev_info_using f (super_hdr_seq F data) :: tr /\
    forallb scan_event ts = true /\
    forallb random_event tr = true /\
    0 <= f < 2 /\
    disk K (SCOUTFS_SUPER_BRICK F + f) = Some data /\
    valid_super F data = true /\
    sbi_mem w' = Some s' /\
    super s' = firstn (sizeof_scoutfs_super F) data /\
    (forall off len, (off + len <= sizeof_scoutfs_super F)%nat ->
       bytes_at off len (super s') = bytes_at off len data).
Proof.
  intros HL Hm E.
  destruct (read_supers_zero_inv K F w s0 w' HL Hm E)
    as (f & data & s' & ts & tr & _ & Hm' & (Hsup & _) & (Hf & (Hd & Hv) & _)
        & Hs & Hr & _ & Ht).
  exists f, data, s', ts, tr. repeat split; try assumption; try lia.
  intros off len Hle. rewrite Hsup. now apply bytes_at_firstn.
Qed.

(** Slots holding sequences 3 and 9 with different payloads. *)
Lemma stored_super_is_copy_of_winner_witness :
  let K := example_kernel (Some (example_brick 3 x11))
                          (Some (example_brick 9 xff)) in
  let F := example_format in
  let w := world_at_selection F in
  let w' := world_of (read_supers K F) w in
  exists f data s' ts tr,
    trace w' = trace w ++ ts ++ ev_info_using f (super_hdr_seq F data) :: tr /\
    forallb scan_event ts = true /\
    forallb random_event tr = true /\
    0 <= f < 2 /\
    disk K (SCOUTFS_SUPER_BRICK F + f) = Some data /\
    valid_super F data = true /\
    sbi_mem w' = Some s' /\
    super s' = firstn (sizeof_scoutfs_super F) data /\
    (forall off len, (off + len <= sizeof_scoutfs_super F)%nat ->
       bytes_at off len (super s') = bytes_at off len data).
Proof.
  intros K F w w'.
  apply (stored_super_is_copy_of_winner K F w (zeroed_sbi F) w').
  - unfold layout_ok. cbn. lia.
  - reflexivity.
  - vm_compute. reflexivity.
Defined.

Lemma alloc_inos_above n :
  forall s ino, In ino (alloc_inos n s) -> next_ino s <= ino.
Proof.
  induction n as [|n IH]; intros s ino H; [destruct H|].
  destruct H as [<-|H]; [cbn; lia|].
  apply IH in H. cbn in H. lia.
Qed.

(** C10: after a [scoutfs_fill_super] that returned 0 the inode counter is
    [SCOUTFS_ROOT_INO + 1], strictly above the inode number the root was
    resolved with, and no number the counter hands out afterwards is the
    root inode number. *)
Theorem next_ino_above_root K F w' :
  layout_ok F ->
  0 <= SCOUTFS_ROOT_INO F < 2 ^ 63 - 1 ->
  scoutfs_fill_super K F new_world = Some (0, w') ->
  exists s',
    sbi_mem w' = Some s' /\
    next_ino s' = SCOUTFS_ROOT_INO F + 1 /\
    SCOUTFS_ROOT_INO F < next_ino s' /\
    In (ev_scoutfs_iget (SCOUTFS_ROOT_INO F) (iget K (SCOUTFS_ROOT_INO F)))
       (trace w') /\
    forall n, ~ In (SCOUTFS_ROOT_INO F) (alloc_inos n s').
Proof.
  intros HL Hroot H.
  destruct (fill_super_zero_inv K F w' HL H)
    as (w2 & _ & _ & s' & _ & _ & _ & (_ & _ & (_ & Hino & _) & _) & Hm & _ & Ht & _).
  assert (Hnext : next_ino s' = SCOUTFS_ROOT_INO F + 1).
  { rewrite Hino. unfold s64. cbv zeta.
    rewrite Z.mod_small by lia.
    destruct (Z.ltb_spec (SCOUTFS_ROOT_INO F + 1) (2 ^ 63)); lia. }
  exists s'. split; [assumption|]. split; [assumption|]. split; [lia|]. split.
  - rewrite Ht. apply in_or_app. right. now left.
  - intros n Hin. apply alloc_inos_above in Hin. lia.
Qed.

(** A mount over one valid slot, with root inode number 1. *)
Lemma next_ino_above_root_witness :
  let K := example_kernel (Some (example_brick 5 x00)) None in
  let F := example_format in
  let w' := world_of (scoutfs_fill_super K F) new_world in
  exists s',
    sbi_mem w' = Some s' /\
    next_ino s' = 1 + 1 /\
    1 < next_ino s' /\
    In (ev_scoutfs_iget 1 (iget K 1)) (trace w') /\
    forall n, ~ In 1 (alloc_inos n s').
Proof.
  intros K F w'.
  apply (next_ino_above_root K F w').
  - unfold layout_ok. cbn. lia.
  - cbn. lia.
  - vm_compute. reflexivity.
Defined.

(** ** Runs on concrete disks *)

(** Two valid slots with the same sequence and different payloads: slot 0
    is used, and the mount goes through. *)
Example equal_sequences_use_slot_0 :
  outcome (scoutfs_fill_super
             (example_kernel (Some (example_brick 4 x00))
                             (Some (example_brick 4 x01)))
             example_format) new_world =
  Some (0, [ev_kzalloc true; ev_sb_set_blocksize 4096 true;
            ev_sb_bread 16 true; ev_brelse 16; ev_sb_bread 17 true;
            ev_brelse 17; ev_info_using 0 4;
            ev_get_random_bytes 0; ev_get_random_bytes 1;
            ev_get_random_bytes 2;
            ev_scoutfs_iget 1 0xffff880000001001;
            ev_d_make_root 0xffff880000001001 0xffff880000002000]).
Proof.
  vm_compute. reflexivity.
Qed.

(** Sequences 3 and 9, both valid: slot 1 is used. *)
Example greater_sequence_uses_slot_1 :
  outcome (read_supers
             (example_kernel (Some (example_brick 3 x00))
                             (Some (example_brick 9 x01)))
             example_format)
          (world_at_selection example_format) =
  Some (0, [ev_kzalloc true; ev_sb_set_blocksize 4096 true;
            ev_sb_bread 16 true; ev_brelse 16; ev_sb_bread 17 true;
            ev_brelse 17; ev_info_using 1 9;
            ev_get_random_bytes 0; ev_get_random_bytes 1;
            ev_get_random_bytes 2]).
Proof.
  vm_compute. reflexivity.
Qed.

(** Both slots with a wrong id: the mount fails with [-EINVAL] and the
    context is freed on the way out. *)
Example both_ids_wrong_fail_the_mount :
  outcome (scoutfs_mount
             (example_kernel (Some (example_brick_bad_id 5 x00))
                             (Some (example_brick_bad_id 7 x01)))
             example_format) new_world =
  Some (ERR_PTR (- EINVAL),
        [ev_kzalloc true; ev_sb_set_blocksize 4096 true;
         ev_sb_bread 16 true; ev_warn 0 (invalid_id 0x1234); ev_brelse 16;
         ev_sb_bread 17 true; ev_warn 1 (invalid_id 0x1234); ev_brelse 17;
         ev_err_no_super; ev_kill_block_super; ev_kfree true]).
Proof.
  vm_compute. reflexivity.
Qed.

(** The check value of CRC-32C: the crc of "123456789", inverted. *)
Example crc32c_check_value :
  Z.lxor (crc32c 0xFFFFFFFF
            [x31; x32; x33; x34; x35; x36; x37; x38; x39]) 0xFFFFFFFF =
  0xE3069283.
Proof.
  vm_compute. reflexivity.
Qed.

(** ** The exact log and the exact context of read_supers *)

Lemma body_trace K F i l w l' w' :
  read_supers_body K F i l w = Some (l', w') ->
  trace w' = trace w ++ release_events (bh l) ++ slot_events K F i /\
  bh l' = slot_held K F i.
Proof.
  destruct w as [b m t].
  unfold read_supers_body, bind, sb_bread, slot_events, fault_warning,
    slot_fault, slot_held, slot_read_ok.
  rewrite brelse_if_run.
  destruct (disk K (SCOUTFS_SUPER_BRICK F + i)) as [data|]; cbn -[Z.add].
  2:{ intros H. injection H as <- <-. cbn. now rewrite <- !app_assoc. }
  destruct (super_id F data =? u64 (SCOUTFS_SUPER_ID F)); cbn -[Z.add].
  2:{ intros H. injection H as <- <-. cbn. now rewrite <- !app_assoc. }
  destruct (computed_crc F data =? super_hdr_crc F data); cbn -[Z.add].
  2:{ intros H. injection H as <- <-. cbn. now rewrite <- !app_assoc. }
  unfold get_sbi. cbn -[Z.add].
  destruct m as [s|]; [|discriminate]. cbn -[Z.add].
  destruct ((found l <? 0) ||
            (super_hdr_seq F data >? super_hdr_seq F (super s)));
    cbn -[Z.add]; intros H; injection H as <- <-; cbn;
    now rewrite <- !app_assoc.
Qed.

Lemma scan_loop_trace K F l w l' w' :
  bh l = None ->
  for_loop 2 0 (read_supers_body K F) l w = Some (l', w') ->
  trace w' ++ release_events (bh l') = trace w ++ scan_trace K F.
Proof.
  intros Hbh H. cbn -[Z.add read_supers_body] in H. unfold bind in H.
  destruct (read_supers_body K F 0 l w) as [[l1 w1]|] eqn:E1; [|discriminate].
  destruct (read_supers_body K F (0 + 1) l1 w1) as [[l2 w2]|] eqn:E2;
    [|discriminate].
  injection H as <- <-.
  apply body_trace in E1. apply body_trace in E2.
  destruct E1 as [T1 B1], E2 as [T2 B2].
  rewrite T2, T1, B1, B2, Hbh. unfold scan_trace. cbn [release_events app].
  change (0 + 1) with 1. now rewrite <- !app_assoc.
Qed.

(** The drawing loop, as a function of the keys. *)
Lemma fill_bloom_loop_exact K n :
  forall k b s t,
    for_loop n (Z.of_nat k) (fill_bloom_key K) tt
      {| sb := b; sbi_mem := Some s; trace := t |} =
    Some (tt,
          {| sb := b;
             sbi_mem := Some {| super := super s; next_ino := next_ino s;
                                next_blkno := next_blkno s;
                                bloom_hash_keys :=
                                  draw_keys K n k (bloom_hash_keys s);
                                item_root := item_root s;
                                dirty_item_root := dirty_item_root s |};
             trace := t ++ map ev_get_random_bytes (seq k n) |}).
Proof.
  induction n as [|n IH]; intros k b s t.
  - cbn. rewrite app_nil_r. now destruct s.
  - cbn -[Z.add Z.of_nat].
    replace (Z.of_nat k + 1) with (Z.of_nat (S k)) by lia.
    rewrite IH. cbn -[Z.of_nat]. rewrite Nat2Z.id.
    now rewrite <- app_assoc.
Qed.

(** [read_supers] on a live context, in full: the result, the calls, and
    the context afterwards. *)
Lemma read_supers_exact K F w s0 :
  layout_ok F ->
  sbi_mem w = Some s0 ->
  exists r w',
    read_supers K F w = Some (r, w') /\
    sb w' = sb w /\
    ((r = - EINVAL /\ no_valid_below K F 2 /\ sbi_mem w' = Some s0 /\
      trace w' = trace w ++ scan_trace K F ++ [ev_err_no_super]) \/
     (r = 0 /\
      exists f data,
        best_below K F 2 f data /\
        sbi_mem w' =
          Some {| super := firstn (sizeof_scoutfs_super F) data;
                  next_ino := s64 (SCOUTFS_ROOT_INO F + 1);
                  next_blkno := s64 2;
                  bloom_hash_keys :=
                    draw_keys K (nr_bloom_hash_keys F) 0 (bloom_hash_keys s0);
                  item_root := item_root s0;
                  dirty_item_root := dirty_item_root s0 |} /\
        trace w' =
          trace w ++ scan_trace K F ++
          ev_info_using f (super_hdr_seq F data) ::
          map ev_get_random_bytes (seq 0 (nr_bloom_hash_keys F)))).
Proof.
  intros HL Hm.
  destruct (scan_loop_inv K F HL s0 2 0 _ w (Z.le_refl 0)
              (scan_inv_start K F s0 w Hm))
    as (l & w1 & ts & Eloop & Hinv & [Hb Ht] & _ & _).
  pose proof (scan_loop_trace K F {| bh := None; found := -1 |} w l w1
                eq_refl Eloop) as Hlog.
  change (0 + Z.of_nat 2) with 2 in Hinv.
  unfold read_supers, bind. rewrite Eloop.
  destruct w1 as [b1 m1 t1]. cbn in Hb, Hlog. subst b1.
  rewrite brelse_if_run, Hlog.
  destruct Hinv as [(Hf & Hm1 & Hnone)|(data & Hbest & Hm1)]; cbn in Hm1; subst m1.
  - rewrite Hf. cbn -[scan_trace].
    do 2 eexists. split; [reflexivity|]. split; [reflexivity|].
    left. cbn -[scan_trace]. repeat split; try assumption.
    now rewrite <- !app_assoc.
  - assert (Hnn : (found l <? 0) = false).
    { destruct Hbest as (Hf & _). apply Z.ltb_ge. lia. }
    rewrite Hnn. cbn -[Z.add for_loop scan_trace].
    rewrite seq_of_copy by assumption.
    rewrite (fill_bloom_loop_exact K (nr_bloom_hash_keys F) 0).
    do 2 eexists. split; [reflexivity|]. split; [reflexivity|].
    right. split; [reflexivity|].
    exists (found l), data. split; [assumption|]. split; [reflexivity|].
    cbn -[scan_trace]. now rewrite <- !app_assoc.
Qed.

(** ** Buffers, reads and warnings of the scan *)




Lemma buffers_random h n k :
  buffers h (map ev_get_random_bytes (seq k n)) = Some h.
Proof.
  revert k. induction n as [|n IH]; intros k; [reflexivity|]. cbn. apply IH.
Qed.

Lemma filter_random (p : event -> bool) n k :
  (forall i, p (ev_get_random_bytes i) = false) ->
  filter p (map ev_get_random_bytes (seq k n)) = [].
Proof.
  intros Hp. revert k. induction n as [|n IH]; intros k; [reflexivity|].
  cbn. now rewrite Hp, IH.
Qed.

Lemma release_events_no_bread o : filter is_bread (release_events o) = [].
Proof.
  now destruct o.
Qed.

Lemma release_events_no_warn o : filter is_warn (release_events o) = [].
Proof.
  now destruct o.
Qed.

Lemma slot_events_bread K F i :
  filter is_bread (slot_events K F i) =
  [ev_sb_bread (SCOUTFS_SUPER_BRICK F + i) (slot_read_ok K F i)].
Proof.
  unfold slot_events, fault_warning. cbn.
  now destruct (slot_fault K F i).
Qed.

Lemma slot_events_warn K F i :
  filter is_warn (slot_events K F i) = fault_warning K F i.
Proof.
  unfold slot_events, fault_warning. cbn.
  now destruct (slot_fault K F i).
Qed.

Lemma scan_trace_bread K F :
  filter is_bread (scan_trace K F) =
  [ev_sb_bread (SCOUTFS_SUPER_BRICK F + 0) (slot_read_ok K F 0);
   ev_sb_bread (SCOUTFS_SUPER_BRICK F + 1) (slot_read_ok K F 1)].
Proof.
  unfold scan_trace.
  now rewrite !filter_app, !slot_events_bread, !release_events_no_bread.
Qed.

Lemma scan_trace_warn K F :
  filter is_warn (scan_trace K F) = fault_warning K F 0 ++ fault_warning K F 1.
Proof.
  unfold scan_trace.
  rewrite !filter_app, !slot_events_warn, !release_events_no_warn.
  cbn. now rewrite app_nil_r.
Qed.

(** A slot has no fault exactly when it holds a valid brick. *)
Lemma slot_fault_none K F i :
  slot_fault K F i = None <-> exists d, slot_valid K F i d.
Proof.
  unfold slot_fault, slot_valid, valid_super.
  destruct (disk K (SCOUTFS_SUPER_BRICK F + i)) as [data|].
  - destruct (super_id F data =? u64 (SCOUTFS_SUPER_ID F)) eqn:Hid; cbn.
    + destruct (computed_crc F data =? super_hdr_crc F data) eqn:Hcrc; cbn.
      * split; [intros _; exists data; now rewrite Hid, Hcrc|reflexivity].
      * split; [discriminate|]. intros (d & Hd & Hv).
        injection Hd as <-. rewrite Hid, Hcrc in Hv. discriminate.
    + split; [discriminate|]. intros (d & Hd & Hv).
      injection Hd as <-. rewrite Hid in Hv. discriminate.
  - split; [discriminate|]. intros (d & Hd & _). discriminate.
Qed.

(** The calls of a [read_supers] on a live context, whatever the result. *)
Lemma read_supers_calls K F w s0 :
  layout_ok F ->
  sbi_mem w = Some s0 ->
  exists r w' tail,
    read_supers K F w = Some (r, w') /\
    trace w' = trace w ++ scan_trace K F ++ tail /\
    buffers None tail = Some None /\
    filter is_bread tail = [] /\
    filter is_warn tail = [].
Proof.
  intros HL Hm.
  destruct (read_supers_exact K F w s0 HL Hm)
    as (r & w' & E & _ & [(_ & _ & _ & Ht)|(_ & f & data & _ & _ & Ht)]).
  - exists r, w', [ev_err_no_super]. auto.
  - exists r, w'. eexists. split; [exact E|]. split; [exact Ht|].
    cbn. rewrite buffers_random, !filter_random by reflexivity. auto.
Qed.



(** X2: [read_supers] reads the blocks [SCOUTFS_SUPER_BRICK] and
    [SCOUTFS_SUPER_BRICK + 1], in this order, once each and no other
    block, whatever it finds: it does not stop at the first valid slot and
    does not read a slot again. *)
Theorem read_supers_reads_both_slots K F w s0 :
  layout_ok F ->
  sbi_mem w = Some s0 ->
  exists r w' t,
    read_supers K F w = Some (r, w') /\
    trace w' = trace w ++ t /\
    filter is_bread t =
    [ev_sb_bread (SCOUTFS_SUPER_BRICK F + 0) (slot_read_ok K F 0);
     ev_sb_bread (SCOUTFS_SUPER_BRICK F + 1) (slot_read_ok K F 1)].
Proof.
  intros HL Hm.
  destruct (read_supers_calls K F w s0 HL Hm)
    as (r & w' & tail & E & Ht & _ & Hb & _).
  exists r, w', (scan_trace K F ++ tail). split; [assumption|].
  split; [assumption|].
  now rewrite filter_app, scan_trace_bread, Hb.
Qed.

Lemma read_supers_reads_both_slots_witness :
  let K := example_kernel (Some (example_brick 9 x00)) None in
  let F := example_format in
  let w := world_at_selection F in
  exists r w' t,
    read_supers K F w = Some (r, w') /\
    trace w' = trace w ++ t /\
    filter is_bread t = [ev_sb_bread (16 + 0) true; ev_sb_bread (16 + 1) false].
Proof.
  intros K F w.
  apply (read_supers_reads_both_slots K F w (zeroed_sbi F)).
  - unfold layout_ok. cbn. lia.
  - reflexivity.
Defined.

(** X3: [read_supers] warns once about every slot that has a fault, in
    slot order, and about no other: a read that fails, else an id that does
    not match (with the id found), else a crc that does not match (with the
    crc computed and the one stored).  A slot has no fault exactly when it
    holds a valid brick. *)
Theorem read_supers_warns_per_faulty_slot K F w s0 :
  layout_ok F ->
  sbi_mem w = Some s0 ->
  exists r w' t,
    read_supers K F w = Some (r, w') /\
    trace w' = trace w ++ t /\
    filter is_warn t = fault_warning K F 0 ++ fault_warning K F 1 /\
    (forall i, slot_fault K F i = None <-> exists d, slot_valid K F i d).
Proof.
  intros HL Hm.
  destruct (read_supers_calls K F w s0 HL Hm)
    as (r & w' & tail & E & Ht & _ & _ & Hw).
  exists r, w', (scan_trace K F ++ tail). split; [assumption|].
  split; [assumption|]. split.
  - now rewrite filter_app, scan_trace_warn, Hw, app_nil_r.
  - intros i. apply slot_fault_none.
Qed.

Lemma read_supers_warns_per_faulty_slot_witness :
  let K := example_kernel (Some (example_brick_bad_id 3 x00))
                          (Some (example_brick 9 x01)) in
  let F := example_format in
  let w := world_at_selection F in
  exists r w' t,
    read_supers K F w = Some (r, w') /\
    trace w' = trace w ++ t /\
    filter is_warn t = fault_warning K F 0 ++ fault_warning K F 1 /\
    (forall i, slot_fault K F i = None <-> exists d, slot_valid K F i d).
Proof.
  intros K F w.
  apply (read_supers_warns_per_faulty_slot K F w (zeroed_sbi F)).
  - unfold layout_ok. cbn. lia.
  - reflexivity.
Defined.

(** ** scoutfs_fill_super in full *)

Lemma best_below_unique K F n f d f' d' :
  best_below K F n f d -> best_below K F n f' d' -> f = f' /\ d = d'.
Proof.
  intros (Hf & Hv & Hall) (Hf' & Hv' & Hall').
  destruct (Hall f' d' Hf' Hv') as [Hle Heq].
  destruct (Hall' f d Hf Hv) as [Hle' Heq'].
  assert (f = f') by lia. subst f'. split; [reflexivity|].
  exact (slot_valid_fun K F f _ _ Hv Hv').
Qed.

Lemma best_below_exists K F :
  layout_ok F ->
  some_slot_valid K F ->
  exists f data, best_below K F 2 f data.
Proof.
  intros HL (i & d & Hi & Hv).
  destruct (read_supers_succeeds K F (world_at_selection F) (zeroed_sbi F)
              i d HL eq_refl Hi Hv)
    as (w' & f & data & s' & ts & tr & _ & _ & _ & _ & Hbest & _).
  now exists f, data.
Qed.


(** The brick [data] of slot [f] is the best: the rest of
    [scoutfs_fill_super] is decided by [scoutfs_iget] and [d_make_root]. *)
Lemma fill_super_selected K F f data :
  layout_ok F ->
  kzalloc_ok K = true ->
  blocksize_supported K F = true ->
  best_below K F 2 f data ->
  scoutfs_fill_super K F new_world =
  let inode := iget K (SCOUTFS_ROOT_INO F) in
  let root := make_root K inode in
  if IS_ERR inode then
    Some (PTR_ERR inode,
          {| sb := sb_after_alloc F true (SCOUTFS_BRICK_SIZE F);
             sbi_mem := Some (selected_ctx K F data);
             trace := selection_log K F f data ++
                      [ev_scoutfs_iget (SCOUTFS_ROOT_INO F) inode] |})
  else
    Some (if u64 root =? 0 then - ENOMEM else 0,
          {| sb := set_s_root (u64 root)
                     (sb_after_alloc F true (SCOUTFS_BRICK_SIZE F));
             sbi_mem := Some (selected_ctx K F data);
             trace := selection_log K F f data ++
                      [ev_scoutfs_iget (SCOUTFS_ROOT_INO F) inode;
                       ev_d_make_root inode root] |}).
Proof.
  intros HL Hk Hb Hbest.
  destruct (read_supers_exact K F (world_at_selection F) (zeroed_sbi F)
              HL eq_refl)
    as (r & w2 & E & Hsb &
        [(_ & Hnone & _)|(-> & f' & data' & Hbest' & Hm & Ht)]).
  - exfalso. destruct Hbest as (Hf & Hv & _). exact (Hnone f data Hf Hv).
  - destruct (best_below_unique K F 2 f' data' f data Hbest' Hbest) as [-> ->].
    rewrite (fill_super_selection K F _ w2 Hk Hb E).
    destruct w2 as [b2 m2 t2]. cbn in Hsb, Hm, Ht. subst b2 m2 t2.
    cbn [Z.eqb negb]. cbv zeta.
    destruct (IS_ERR (iget K (SCOUTFS_ROOT_INO F))); reflexivity.
Qed.

(** A result of 0, inverted in full. *)
Lemma fill_super_zero_exact K F w' :
  layout_ok F ->
  scoutfs_fill_super K F new_world = Some (0, w') ->
  kzalloc_ok K = true /\
  blocksize_supported K F = true /\
  IS_ERR (iget K (SCOUTFS_ROOT_INO F)) = false /\
  u64 (make_root K (iget K (SCOUTFS_ROOT_INO F))) <> 0 /\
  exists f data,
    best_below K F 2 f data /\
    w' = {| sb := set_s_root (u64 (make_root K (iget K (SCOUTFS_ROOT_INO F))))
                    (sb_after_alloc F true (SCOUTFS_BRICK_SIZE F));
            sbi_mem := Some (selected_ctx K F data);
            trace := selection_log K F f data ++
                     [ev_scoutfs_iget (SCOUTFS_ROOT_INO F)
                        (iget K (SCOUTFS_ROOT_INO F));
                      ev_d_make_root (iget K (SCOUTFS_ROOT_INO F))
                        (make_root K (iget K (SCOUTFS_ROOT_INO F)))] |}.
Proof.
  intros HL H.
  assert (Hnomem : - ENOMEM <> 0) by (unfold ENOMEM; lia).
  assert (Hinval : - EINVAL <> 0) by (unfold EINVAL; lia).
  destruct (kzalloc_ok K) eqn:Hk.
  2:{ rewrite (fill_super_no_memory K F Hk) in H. congruence. }
  destruct (blocksize_supported K F) eqn:Hb.
  2:{ rewrite (fill_super_bad_blocksize K F Hk Hb) in H. congruence. }
  destruct (read_supers_exact K F (world_at_selection F) (zeroed_sbi F)
              HL eq_refl)
    as (r & w2 & E & Hsb &
        [(-> & Hnone & _)|(-> & f & data & Hbest & _)]).
  - rewrite (fill_super_selection K F _ w2 Hk Hb E) in H. cbn in H. congruence.
  - rewrite (fill_super_selected K F f data HL Hk Hb Hbest) in H.
    cbv zeta in H.
    destruct (IS_ERR (iget K (SCOUTFS_ROOT_INO F))) eqn:Herr.
    + pose proof (PTR_ERR_range _ Herr). injection H as H _. lia.
    + destruct (u64 (make_root K (iget K (SCOUTFS_ROOT_INO F))) =? 0) eqn:Hroot;
        [congruence|].
      injection H as <-. apply Z.eqb_neq in Hroot.
      repeat split; try assumption. now exists f, data.
Qed.

(** ** Bloom keys *)





Lemma scan_trace_no_random K F : filter random_event (scan_trace K F) = [].
Proof.
  unfold scan_trace, slot_events, fault_warning.
  rewrite !filter_app.
  destruct (slot_fault K F 0), (slot_fault K F 1),
    (slot_held K F 0), (slot_held K F 1); reflexivity.
Qed.



(** ** Success and failure of the mount *)


(** X5: [scoutfs_fill_super] returns 0 exactly when the context is
    allocated, the block size is accepted, some slot holds a valid brick,
    [scoutfs_iget] of the root inode returns no error and [d_make_root]
    returns a dentry. *)
Theorem fill_super_succeeds_iff K F :
  layout_ok F ->
  (exists w', scoutfs_fill_super K F new_world = Some (0, w')) <->
  (kzalloc_ok K = true /\
   blocksize_supported K F = true /\
   some_slot_valid K F /\
   IS_ERR (iget K (SCOUTFS_ROOT_INO F)) = false /\
   u64 (make_root K (iget K (SCOUTFS_ROOT_INO F))) <> 0).
Proof.
  intros HL. split.
  - intros (w' & H).
    destruct (fill_super_zero_exact K F w' HL H)
      as (Hk & Hb & Herr & Hroot & f & data & (Hf & Hv & _) & _).
    repeat split; try assumption. now exists f, data.
  - intros (Hk & Hb & Hsome & Herr & Hroot).
    destruct (best_below_exists K F HL Hsome) as (f & data & Hbest).
    rewrite (fill_super_selected K F f data HL Hk Hb Hbest). cbv zeta.
    rewrite Herr. apply Z.eqb_neq in Hroot. rewrite Hroot.
    eexists. reflexivity.
Qed.

Lemma fill_super_succeeds_iff_witness :
  let K := example_kernel None (Some (example_brick 5 x00)) in
  let F := example_format in
  (exists w', scoutfs_fill_super K F new_world = Some (0, w')) <->
  (kzalloc_ok K = true /\
   blocksize_supported K F = true /\
   some_slot_valid K F /\
   IS_ERR (iget K (SCOUTFS_ROOT_INO F)) = false /\
   u64 (make_root K (iget K (SCOUTFS_ROOT_INO F))) <> 0).
Proof.
  intros K F.
  apply (fill_super_succeeds_iff K F).
  unfold layout_ok. cbn. lia.
Defined.


(** [scoutfs_mount] after any [scoutfs_fill_super] that failed. *)
Lemma mount_after_failure K F e w1 :
  scoutfs_fill_super K F new_world = Some (e, w1) ->
  e <> 0 ->
  (if s_fs_info (sb w1) then sbi_mem w1 <> None else sbi_mem w1 = None) ->
  scoutfs_mount K F new_world =
  Some (ERR_PTR e,
        {| sb := sb w1; sbi_mem := None;
           trace := trace w1 ++
                    [ev_kill_block_super; ev_kfree (s_fs_info (sb w1))] |}).
Proof.
  intros Hf He Hp.
  unfold scoutfs_mount, mount_bdev, bind. rewrite Hf.
  apply Z.eqb_neq in He. rewrite He. cbn.
  destruct (s_fs_info (sb w1)); cbn.
  - destruct (sbi_mem w1); [|congruence]. cbn. now rewrite <- app_assoc.
  - rewrite Hp. now rewrite <- app_assoc.
Qed.





(** X7: when the allocation fails, or the block size is refused, the mount
    fails before anything is read: no slot is read and no key is drawn;
    the calls are the ones listed, with [kfree] of NULL after a failed
    allocation, and the result is the error pointer of [-ENOMEM] or of
    [-EINVAL]. *)
Theorem early_failure_reads_nothing K F :
  kzalloc_ok K = false \/ blocksize_supported K F = false ->
  exists w',
    scoutfs_mount K F new_world =
      Some (ERR_PTR (if kzalloc_ok K then - EINVAL else - ENOMEM), w') /\
    trace w' =
      (if kzalloc_ok K
       then [ev_kzalloc true;
             ev_sb_set_blocksize (SCOUTFS_BRICK_SIZE F) false;
             ev_printk_blocksize; ev_kill_block_super; ev_kfree true]
       else [ev_kzalloc false; ev_kill_block_super; ev_kfree false]) /\
    filter is_bread (trace w') = [] /\
    filter random_event (trace w') = [] /\
    sbi_mem w' = None.
Proof.
  intros H.
  destruct (kzalloc_ok K) eqn:Hk.
  - destruct H as [H|Hb]; [discriminate|].
    eexists. split.
    + apply (mount_after_failure K F _ _ (fill_super_bad_blocksize K F Hk Hb));
        [discriminate|discriminate].
    + cbn. auto.
  - eexists. split.
    + apply (mount_after_failure K F _ _ (fill_super_no_memory K F Hk));
        [discriminate|reflexivity].
    + cbn. auto.
Qed.

Lemma early_failure_reads_nothing_witness :
  let K := example_kernel_no_blocksize in
  let F := example_format in
  exists w',
    scoutfs_mount K F new_world = Some (ERR_PTR (- EINVAL), w') /\
    trace w' =
      [ev_kzalloc true; ev_sb_set_blocksize 4096 false;
       ev_printk_blocksize; ev_kill_block_super; ev_kfree true] /\
    filter is_bread (trace w') = [] /\
    filter random_event (trace w') = [] /\
    sbi_mem w' = None.
Proof.
  intros K F.
  apply (early_failure_reads_nothing K F).
  right. reflexivity.
Defined.





(** ** What the selection does not depend on *)

(** X10: what [read_supers] selects does not depend on what the context
    held before: started on two contexts, whatever their [super], counters
    and trees, it returns the same result after the same calls, and on
    success both contexts hold the same record and the same counters.  A
    record left in [sbi->super] is never compared against. *)
Theorem selection_ignores_old_context K F w1 w2 s1 s2 :
  layout_ok F ->
  sbi_mem w1 = Some s1 ->
  sbi_mem w2 = Some s2 ->
  exists r w1' w2' t,
    read_supers K F w1 = Some (r, w1') /\
    read_supers K F w2 = Some (r, w2') /\
    trace w1' = trace w1 ++ t /\
    trace w2' = trace w2 ++ t /\
    (r = 0 ->
     exists s1' s2',
       sbi_mem w1' = Some s1' /\ sbi_mem w2' = Some s2' /\
       super s1' = super s2' /\
       next_ino s1' = next_ino s2' /\
       next_blkno s1' = next_blkno s2').
Proof.
  intros HL Hm1 Hm2.
  destruct (read_supers_exact K F w1 s1 HL Hm1)
    as (r1 & w1' & E1 & _ &
        [(-> & Hnone1 & _ & Ht1)|(-> & f1 & d1 & Hbest1 & Hs1 & Ht1)]);
  destruct (read_supers_exact K F w2 s2 HL Hm2)
    as (r2 & w2' & E2 & _ &
        [(-> & Hnone2 & _ & Ht2)|(-> & f2 & d2 & Hbest2 & Hs2 & Ht2)]).
  - do 4 eexists. repeat split; try eassumption. discriminate.
  - exfalso. destruct Hbest2 as (Hf & Hv & _). exact (Hnone1 f2 d2 Hf Hv).
  - exfalso. destruct Hbest1 as (Hf & Hv & _). exact (Hnone2 f1 d1 Hf Hv).
  - destruct (best_below_unique K F 2 f1 d1 f2 d2 Hbest1 Hbest2) as [-> ->].
    do 4 eexists. repeat split; try eassumption.
    intros _. do 2 eexists. split; [exact Hs1|]. split; [exact Hs2|].
    repeat split.
Qed.

(** A context that already holds a record of sequence 2^63. *)
Lemma selection_ignores_old_context_witness :
  let K := example_kernel (Some (example_brick 3 x00))
                          (Some (example_brick 9 x01)) in
  let F := example_format in
  let w1 := world_at_selection F in
  let s2 := memcpy_super F (zeroed_sbi F) (example_brick (2 ^ 63) xff) in
  let w2 := {| sb := sb w1; sbi_mem := Some s2; trace := [] |} in
  exists r w1' w2' t,
    read_supers K F w1 = Some (r, w1') /\
    read_supers K F w2 = Some (r, w2') /\
    trace w1' = trace w1 ++ t /\
    trace w2' = trace w2 ++ t /\
    (r = 0 ->
     exists s1' s2',
       sbi_mem w1' = Some s1' /\ sbi_mem w2' = Some s2' /\
       super s1' = super s2' /\
       next_ino s1' = next_ino s2' /\
       next_blkno s1' = next_blkno s2').
Proof.
  intros K F w1 s2 w2.
  apply (selection_ignores_old_context K F w1 w2 (zeroed_sbi F) s2).
  - unfold layout_ok. cbn. lia.
  - reflexivity.
  - reflexivity.
Defined.

Lemma swap_slots_disk_0 K F :
  disk (swap_slots K F) (SCOUTFS_SUPER_BRICK F + 0) =
  disk K (SCOUTFS_SUPER_BRICK F + 1).
Proof.
  cbn -[Z.add]. now rewrite Z.add_0_r, Z.eqb_refl.
Qed.

Lemma swap_slots_disk_1 K F :
  disk (swap_slots K F) (SCOUTFS_SUPER_BRICK F + 1) =
  disk K (SCOUTFS_SUPER_BRICK F + 0).
Proof.
  cbn -[Z.add].
  destruct (Z.eqb_spec (SCOUTFS_SUPER_BRICK F + 1) (SCOUTFS_SUPER_BRICK F));
    [lia|].
  now rewrite Z.eqb_refl.
Qed.

Lemma slot_valid_swap K F i d :
  0 <= i < 2 ->
  slot_valid (swap_slots K F) F i d -> slot_valid K F (1 - i) d.
Proof.
  intros Hi [Hd Hv]. split; [|assumption].
  assert (i = 0 \/ i = 1) as [-> | ->] by lia.
  - now rewrite swap_slots_disk_0 in Hd.
  - now rewrite swap_slots_disk_1 in Hd.
Qed.

Lemma slot_valid_unswap K F i d :
  0 <= i < 2 ->
  slot_valid K F i d -> slot_valid (swap_slots K F) F (1 - i) d.
Proof.
  intros Hi [Hd Hv]. split; [|assumption].
  assert (i = 0 \/ i = 1) as [-> | ->] by lia.
  - now rewrite swap_slots_disk_1.
  - now rewrite swap_slots_disk_0.
Qed.

Lemma draw_keys_ext K1 K2 n :
  (forall i, random_bytes K1 i = random_bytes K2 i) ->
  forall i keys, draw_keys K1 n i keys = draw_keys K2 n i keys.
Proof.
  intros Hr. induction n as [|n IH]; intros i keys; [reflexivity|].
  cbn. now rewrite Hr, IH.
Qed.

(** X11: unless both slots hold valid bricks with the same sequence, what
    [read_supers] leaves in the context does not depend on which slot
    holds which brick: with the two slots exchanged the result is the same
    and the context is the same, record, counters and keys. *)
Theorem selection_ignores_slot_order K F w s0 :
  layout_ok F ->
  sbi_mem w = Some s0 ->
  (forall d0 d1, slot_valid K F 0 d0 -> slot_valid K F 1 d1 ->
                 super_hdr_seq F d0 <> super_hdr_seq F d1) ->
  exists r w1 w2,
    read_supers K F w = Some (r, w1) /\
    read_supers (swap_slots K F) F w = Some (r, w2) /\
    sbi_mem w1 = sbi_mem w2.
Proof.
  intros HL Hm Hne.
  destruct (read_supers_exact K F w s0 HL Hm)
    as (r1 & w1 & E1 & _ &
        [(-> & Hnone1 & Hs1 & _)|(-> & f1 & d1 & Hbest1 & Hs1 & _)]);
  destruct (read_supers_exact (swap_slots K F) F w s0 HL Hm)
    as (r2 & w2 & E2 & _ &
        [(-> & Hnone2 & Hs2 & _)|(-> & f2 & d2 & Hbest2 & Hs2 & _)]).
  - exists (- EINVAL), w1, w2. repeat split; try assumption. congruence.
  - exfalso. destruct Hbest2 as (Hf & Hv & _).
    apply (Hnone1 (1 - f2) d2); [lia|now apply slot_valid_swap].
  - exfalso. destruct Hbest1 as (Hf & Hv & _).
    apply (Hnone2 (1 - f1) d1); [lia|now apply slot_valid_unswap].
  - exists 0, w1, w2. split; [assumption|]. split; [assumption|].
    rewrite Hs1, Hs2.
    destruct Hbest1 as (Hf1 & Hv1 & Hall1), Hbest2 as (Hf2 & Hv2 & Hall2).
    pose proof (slot_valid_swap K F f2 d2 Hf2 Hv2) as Hv2'.
    pose proof (slot_valid_unswap K F f1 d1 Hf1 Hv1) as Hv1'.
    destruct (Hall1 (1 - f2) d2) as [Hle1 _]; [lia|assumption|].
    destruct (Hall2 (1 - f1) d1) as [Hle2 _]; [lia|assumption|].
    assert (d1 = d2) as ->.
    { destruct (Z.eq_dec f1 (1 - f2)) as [->|Hf].
      - exact (slot_valid_fun K F _ _ _ Hv1 Hv2').
      - exfalso.
        assert ((f1 = 0 /\ f2 = 0) \/ (f1 = 1 /\ f2 = 1))
          as [[-> ->]|[-> ->]] by lia.
        + apply (Hne d1 d2); [assumption|assumption|lia].
        + apply (Hne d2 d1); [assumption|assumption|lia]. }
    now rewrite (draw_keys_ext (swap_slots K F) K) by reflexivity.
Qed.

Lemma selection_ignores_slot_order_witness :
  let K := example_kernel (Some (example_brick 3 x00))
                          (Some (example_brick 9 x01)) in
  let F := example_format in
  let w := world_at_selection F in
  exists r w1 w2,
    read_supers K F w = Some (r, w1) /\
    read_supers (swap_slots K F) F w = Some (r, w2) /\
    sbi_mem w1 = sbi_mem w2.
Proof.
  intros K F w.
  apply (selection_ignores_slot_order K F w (zeroed_sbi F)).
  - unfold layout_ok. cbn. lia.
  - reflexivity.
  - intros d0 d1 [H0 _] [H1 _].
    injection H0 as <-. injection H1 as <-.
    vm_compute. discriminate.
Defined.

(** X12: a [read_supers] that finds no valid slot changes nothing but the
    log: the context is exactly what it was, counters, keys and record
    included, the super_block is what it was, and no key was drawn. *)
Theorem failed_selection_leaves_context K F w s0 :
  layout_ok F ->
  sbi_mem w = Some s0 ->
  slot_faulty K F 0 ->
  slot_faulty K F 1 ->
  exists w' t,
    read_supers K F w = Some (- EINVAL, w') /\
    sbi_mem w' = Some s0 /\
    sb w' = sb w /\
    trace w' = trace w ++ t /\
    filter random_event t = [].
Proof.
  intros HL Hm H0 H1.
  destruct (read_supers_exact K F w s0 HL Hm)
    as (r & w' & E & Hsb &
        [(-> & _ & Hs & Ht)|(_ & f & data & (Hf & Hv & _) & _)]).
  - exists w', (scan_trace K F ++ [ev_err_no_super]).
    repeat split; try assumption.
    rewrite filter_app, scan_trace_no_random. reflexivity.
  - exfalso. assert (f = 0 \/ f = 1) as [-> | ->] by lia.
    + apply (proj1 (slot_faulty_not_valid K F 0) H0 data Hv).
    + apply (proj1 (slot_faulty_not_valid K F 1) H1 data Hv).
Qed.

Lemma failed_selection_leaves_context_witness :
  let K := example_kernel None (Some (example_brick_bad_crc 7 x01)) in
  let F := example_format in
  let w := world_at_selection F in
  exists w' t,
    read_supers K F w = Some (- EINVAL, w') /\
    sbi_mem w' = Some (zeroed_sbi F) /\
    sb w' = sb w /\
    trace w' = trace w ++ t /\
    filter random_event t = [].
Proof.
  intros K F w.
  apply (failed_selection_leaves_context K F w (zeroed_sbi F)).
  - unfold layout_ok. cbn. lia.
  - reflexivity.
  - vm_compute. exact I.
  - vm_compute. reflexivity.
Defined.

(** ** crc32c detects a changed byte *)

Lemma lxor_range32 a b :
  0 <= a < 2 ^ 32 -> 0 <= b < 2 ^ 32 -> 0 <= Z.lxor a b < 2 ^ 32.
Proof.
  intros Ha Hb.
  assert (Hnn : 0 <= Z.lxor a b) by (apply Z.lxor_nonneg; lia).
  split; [assumption|].
  destruct (Z.eq_dec (Z.lxor a b) 0) as [->|Hne]; [lia|].
  apply Z.log2_lt_pow2; [lia|].
  pose proof (Z.log2_lxor a b ltac:(lia) ltac:(lia)) as Hlog.
  assert (Hla : Z.log2 a < 32).
  { destruct (Z.eq_dec a 0) as [->|]; [cbn; lia|].
    apply Z.log2_lt_pow2; lia. }
  assert (Hlb : Z.log2 b < 32).
  { destruct (Z.eq_dec b 0) as [->|]; [cbn; lia|].
    apply Z.log2_lt_pow2; lia. }
  lia.
Qed.

Lemma lxor_cancel_r a b c : Z.lxor a c = Z.lxor b c -> a = b.
Proof.
  intros H. apply (f_equal (fun x => Z.lxor x c)) in H.
  now rewrite !Z.lxor_assoc, !Z.lxor_nilpotent, !Z.lxor_0_r in H.
Qed.

Lemma lxor_cancel_l a b c : Z.lxor c a = Z.lxor c b -> a = b.
Proof.
  rewrite (Z.lxor_comm c a), (Z.lxor_comm c b). apply lxor_cancel_r.
Qed.

Lemma crc32c_bit_range c :
  0 <= c < 2 ^ 32 -> 0 <= crc32c_bit c < 2 ^ 32.
Proof.
  intros Hc. unfold crc32c_bit. apply lxor_range32.
  - rewrite Z.shiftr_div_pow2 by lia. change (2 ^ 1) with 2.
    split; [apply Z.div_pos; lia|].
    apply Z.div_lt_upper_bound; lia.
  - destruct (Z.testbit c 0); unfold CRC32C_POLY_LE; lia.
Qed.

(** The step of one bit can be undone: bit 31 of the result says whether
    the polynomial was folded in. *)
Lemma crc32c_bit_undo c :
  0 <= c < 2 ^ 32 ->
  2 * Z.lxor (crc32c_bit c)
        (if Z.testbit (crc32c_bit c) 31 then CRC32C_POLY_LE else 0) +
  Z.b2z (Z.testbit (crc32c_bit c) 31) = c.
Proof.
  intros Hc.
  assert (Hhigh : Z.testbit (Z.shiftr c 1) 31 = false).
  { rewrite Z.shiftr_spec by lia. change (31 + 1) with 32.
    apply Z.testbit_false; [lia|].
    rewrite Z.div_small by lia. reflexivity. }
  assert (Htop : Z.testbit (crc32c_bit c) 31 = Z.testbit c 0).
  { unfold crc32c_bit. rewrite Z.lxor_spec, Hhigh.
    destruct (Z.testbit c 0); reflexivity. }
  rewrite Htop. unfold crc32c_bit.
  rewrite Z.lxor_assoc, Z.lxor_nilpotent, Z.lxor_0_r.
  rewrite Z.bit0_odd, <- Z.div2_spec.
  symmetry. apply Z.div2_odd.
Qed.

Lemma crc32c_bit_inj c1 c2 :
  0 <= c1 < 2 ^ 32 -> 0 <= c2 < 2 ^ 32 ->
  crc32c_bit c1 = crc32c_bit c2 -> c1 = c2.
Proof.
  intros H1 H2 H.
  rewrite <- (crc32c_bit_undo c1 H1), <- (crc32c_bit_undo c2 H2).
  now rewrite H.
Qed.

Lemma byte_val_range b : 0 <= byte_val b < 256.
Proof.
  unfold byte_val. pose proof (Byte.to_N_bounded b). lia.
Qed.

Lemma byte_val_inj b1 b2 : byte_val b1 = byte_val b2 -> b1 = b2.
Proof.
  unfold byte_val. intros H. apply N2Z.inj in H.
  pose proof (Byte.of_to_N b1) as H1. pose proof (Byte.of_to_N b2) as H2.
  rewrite H in H1. congruence.
Qed.

Ltac crc_ranges :=
  repeat apply crc32c_bit_range;
  apply lxor_range32; [assumption|];
  match goal with
  | |- _ <= byte_val ?b < _ => pose proof (byte_val_range b); lia
  end.

Lemma crc32c_byte_range c b :
  0 <= c < 2 ^ 32 -> 0 <= crc32c_byte c b < 2 ^ 32.
Proof.
  intros Hc. unfold crc32c_byte. cbv zeta. crc_ranges.
Qed.

Lemma crc32c_byte_inj_crc c1 c2 b :
  0 <= c1 < 2 ^ 32 -> 0 <= c2 < 2 ^ 32 ->
  crc32c_byte c1 b = crc32c_byte c2 b -> c1 = c2.
Proof.
  intros H1 H2 H. unfold crc32c_byte in H. cbv zeta in H.
  do 8 (apply crc32c_bit_inj in H; [|crc_ranges|crc_ranges]).
  exact (lxor_cancel_r _ _ _ H).
Qed.

Lemma crc32c_byte_inj_byte c b1 b2 :
  0 <= c < 2 ^ 32 ->
  crc32c_byte c b1 = crc32c_byte c b2 -> b1 = b2.
Proof.
  intros Hc H. unfold crc32c_byte in H. cbv zeta in H.
  do 8 (apply crc32c_bit_inj in H; [|crc_ranges|crc_ranges]).
  apply byte_val_inj. exact (lxor_cancel_l _ _ _ H).
Qed.

Lemma crc32c_range data :
  forall c, 0 <= c < 2 ^ 32 -> 0 <= crc32c c data < 2 ^ 32.
Proof.
  unfold crc32c. induction data as [|b data IH]; intros c Hc; [assumption|].
  cbn. apply IH. now apply crc32c_byte_range.
Qed.

(** Over the same bytes, different seeds give different crcs. *)
Lemma crc32c_inj_seed data :
  forall c1 c2,
    0 <= c1 < 2 ^ 32 -> 0 <= c2 < 2 ^ 32 ->
    crc32c c1 data = crc32c c2 data -> c1 = c2.
Proof.
  unfold crc32c. induction data as [|b data IH]; intros c1 c2 H1 H2 H;
    [assumption|].
  cbn in H. apply IH in H; try now apply crc32c_byte_range.
  exact (crc32c_byte_inj_crc c1 c2 b H1 H2 H).
Qed.

(** Two inputs that differ in one byte have different crcs. *)
Lemma crc32c_one_byte c pre b b' suf :
  0 <= c < 2 ^ 32 ->
  crc32c c (pre ++ b :: suf) = crc32c c (pre ++ b' :: suf) -> b = b'.
Proof.
  intros Hc H. unfold crc32c in H. rewrite !fold_left_app in H. cbn in H.
  fold (crc32c (crc32c_byte (fold_left crc32c_byte pre c) b) suf) in H.
  fold (crc32c (crc32c_byte (fold_left crc32c_byte pre c) b') suf) in H.
  pose proof (crc32c_range pre c Hc) as Hpre. unfold crc32c in Hpre.
  apply crc32c_inj_seed in H; try now apply crc32c_byte_range.
  exact (crc32c_byte_inj_byte _ b b' Hpre H).
Qed.

Lemma le_to_cpu_one_byte pre b b' suf :
  le_to_cpu (pre ++ b :: suf) = le_to_cpu (pre ++ b' :: suf) -> b = b'.
Proof.
  induction pre as [|h pre IH]; cbn [le_to_cpu app]; intros H.
  - apply byte_val_inj. lia.
  - apply IH. lia.
Qed.

Lemma set_nth_split {A} (d : A) p v l :
  (p < length l)%nat ->
  l = firstn p l ++ nth p l d :: skipn (S p) l /\
  set_nth p v l = firstn p l ++ v :: skipn (S p) l.
Proof.
  revert p. induction l as [|h t IH]; intros p Hp; [cbn in Hp; lia|].
  destruct p as [|p]; cbn [firstn nth skipn set_nth app]; [now split|].
  cbn in Hp. destruct (IH p ltac:(lia)) as [H1 H2].
  split; f_equal; assumption.
Qed.

(** X13: a changed byte is always caught.  A brick that is valid stops
    being valid when any one of its bytes is replaced by a different one,
    whether the byte lies in [hdr.crc], in the id, in the rest of the struct
    or in the part of the brick behind the struct. *)
Theorem changed_byte_fails_validation F data p b' :
  crc_call_in_bounds F data ->
  (p < length data)%nat ->
  nth p data x00 <> b' ->
  valid_super F data = true ->
  valid_super F (set_nth p b' data) = false.
Proof.
  intros (Hlen & H4 & Hin) Hp Hb Hv.
  assert (Hoff : offsetof_hdr_crc F = 0%nat) by lia.
  destruct (set_nth_split x00 p b' data Hp) as [Hdata Hdata'].
  set (pre := firstn p data) in *. set (suf := skipn (S p) data) in *.
  set (b := nth p data x00) in *.
  assert (Hpre : length pre = p) by (subst pre; rewrite length_firstn; lia).
  unfold valid_super in *. apply andb_true_iff in Hv. destruct Hv as [_ Hcrc].
  apply Z.eqb_eq in Hcrc.
  apply andb_false_iff. right. apply Z.eqb_neq. intros Hcrc'.
  assert (Hcomp : forall d, computed_crc F d =
            crc32c (u32 (Z.lnot 0))
              (firstn (SCOUTFS_BRICK_SIZE F - 4) (skipn 4 d))).
  { intros d. unfold computed_crc, crc_region, bytes_at.
    now rewrite Hoff. }
  assert (Hst : forall d, super_hdr_crc F d = le_to_cpu (firstn 4 d)).
  { intros d. unfold super_hdr_crc, bytes_at. now rewrite Hoff. }
  rewrite Hcomp, Hst in Hcrc, Hcrc'. clear Hcomp Hst.
  rewrite Hdata' in Hcrc'. rewrite Hdata in Hcrc.
  rewrite !firstn_app, !skipn_app, Hpre in Hcrc, Hcrc'.
  assert (Hseed : 0 <= u32 (Z.lnot 0) < 2 ^ 32) by (vm_compute; split; congruence).
  destruct (Nat.lt_ge_cases p 4) as [Hlt|Hge].
  - (* the byte lies in hdr.crc *)
    replace (4 - p)%nat with (S (3 - p)) in Hcrc, Hcrc' by lia.
    rewrite firstn_cons, skipn_cons in Hcrc, Hcrc'.
    rewrite (firstn_all2 (n := 4) pre) in Hcrc, Hcrc' by lia.
    rewrite Hcrc in Hcrc'.
    apply Hb. exact (le_to_cpu_one_byte _ _ _ _ Hcrc').
  - (* the byte lies behind hdr.crc *)
    replace (4 - p)%nat with 0%nat in Hcrc, Hcrc' by lia.
    rewrite firstn_O, skipn_O, app_nil_r in Hcrc, Hcrc'.
    rewrite <- Hcrc' in Hcrc. clear Hcrc'.
    assert (Hsk : length (skipn 4 pre) = (p - 4)%nat)
      by (rewrite length_skipn; lia).
    rewrite !firstn_app, Hsk in Hcrc.
    rewrite (firstn_all2 (n := SCOUTFS_BRICK_SIZE F - 4) (skipn 4 pre))
      in Hcrc by lia.
    replace (SCOUTFS_BRICK_SIZE F - 4 - (p - 4))%nat
      with (S (SCOUTFS_BRICK_SIZE F - 4 - (p - 4) - 1)) in Hcrc by lia.
    rewrite !firstn_cons in Hcrc.
    apply Hb. exact (crc32c_one_byte _ _ _ _ _ Hseed Hcrc).
Qed.

(** A byte in the part of the brick behind the struct. *)
Lemma changed_byte_fails_validation_witness :
  valid_super example_format (set_nth 2000 x01 (example_brick 5 x00)) = false.
Proof.
  apply (changed_byte_fails_validation example_format
           (example_brick 5 x00) 2000 x01).
  - assert (Hlen : length (example_brick 5 x00) = 4096%nat)
      by (vm_compute; reflexivity).
    unfold crc_call_in_bounds. rewrite Hlen. cbn. lia.
  - assert (Hlen : length (example_brick 5 x00) = 4096%nat)
      by (vm_compute; reflexivity).
    rewrite Hlen. lia.
  - vm_compute. discriminate.
  - vm_compute. reflexivity.
Defined.

(** ** Module init and exit *)

(** X14: [scoutfs_module_init] makes its three calls in order and stops at
    the first that returns non-zero, whose result it returns; it returns 0
    exactly when all three did.  It makes no exit call, so what succeeded
    before a failure is not undone by it; after a result of 0
    [scoutfs_module_exit] undoes the three calls in the reverse order. *)
Theorem module_init_stops_at_first_failure E :
  let r := fst (scoutfs_module_init E) in
  let calls := snd (scoutfs_module_init E) in
  (r = 0 <->
   scoutfs_inode_init_ret E = 0 /\ scoutfs_dir_init_ret E = 0 /\
   register_filesystem_ret E = 0) /\
  (scoutfs_inode_init_ret E <> 0 ->
   r = scoutfs_inode_init_ret E /\ calls = [call_scoutfs_inode_init]) /\
  (scoutfs_inode_init_ret E = 0 -> scoutfs_dir_init_ret E <> 0 ->
   r = scoutfs_dir_init_ret E /\
   calls = [call_scoutfs_inode_init; call_scoutfs_dir_init]) /\
  (scoutfs_inode_init_ret E = 0 -> scoutfs_dir_init_ret E = 0 ->
   r = register_filesystem_ret E /\
   calls = [call_scoutfs_inode_init; call_scoutfs_dir_init;
            call_register_filesystem]) /\
  (forall c, In c calls -> undo c <> None) /\
  (r = 0 -> map Some scoutfs_module_exit = map undo (rev calls)).
Proof.
  cbv zeta. unfold scoutfs_module_init, elvis. cbn [fst snd].
  destruct (Z.eqb_spec (scoutfs_inode_init_ret E) 0) as [Hi|Hi];
    cbn [fst snd app].
  - destruct (Z.eqb_spec (scoutfs_dir_init_ret E) 0) as [Hd|Hd];
      cbn [fst snd app].
    + split; [tauto|].
      split; [intros H; contradiction|]. split; [intros _ H; contradiction|].
      split; [now intros _ _|]. split.
      { intros c [<-|[<-|[<-|[]]]]; discriminate. }
      intros _. reflexivity.
    + split; [tauto|].
      split; [intros H; contradiction|]. split; [now intros _ _|].
      split; [intros _ H; contradiction|]. split.
      { intros c [<-|[<-|[]]]; discriminate. }
      intros H. contradiction.
  - split; [tauto|].
    split; [now intros _|]. split; [intros H; contradiction|].
    split; [intros H; contradiction|]. split.
    { intros c [<-|[]]; discriminate. }
    intros H. contradiction.
Qed.

(** The directory code fails to initialise. *)
Lemma module_init_stops_at_first_failure_witness :
  scoutfs_module_init {| scoutfs_inode_init_ret := 0;
                         scoutfs_dir_init_ret := - ENOMEM;
                         register_filesystem_ret := 0 |} =
  (- ENOMEM, [call_scoutfs_inode_init; call_scoutfs_dir_init]).
Proof.
  pose proof (module_init_stops_at_first_failure
                {| scoutfs_inode_init_ret := 0;
                   scoutfs_dir_init_ret := - ENOMEM;
                   register_filesystem_ret := 0 |}) as H.
  cbv zeta in H. destruct H as (_ & _ & H & _).
  destruct (H eq_refl ltac:(discriminate)) as [Hr Hc].
  cbn [scoutfs_inode_init_ret scoutfs_dir_init_ret] in Hr.
  rewrite (surjective_pairing (scoutfs_module_init _)).
  now rewrite Hr, Hc.
Defined.
